(** * PasteGuard privacy core: conflict resolution, routing decision and
    the SSE unmasking stream, embedded from the TypeScript sources.

    - [ConflictResolver]: the conflict-resolution module (overlaps, isContainedIn,
      groupBy, mergeOverlapping, removeConflicting, resolveConflicts,
      resolveConflictsSimple).
    - [RouteDecider]: decideRoute of src/services/decision.test.ts.
    - [StreamRewriter]: createUnmaskingStream of
      src/services/stream-transformer.ts.

    Offsets and scores are JavaScript numbers; they are modelled as [Z]:
    offsets are character positions, and of a score the code uses only
    the order (comparison and maximum), so a score is a confidence on a
    fixed scale (90 for 0.9).  Fields that a caller's entity type adds to
    EntityWithScore are not modelled.  Text is modelled as [string], one
    [ascii] per code unit. *)

From Stdlib Require Import ZArith List String Ascii Bool Lia.
From Stdlib Require Import Permutation Sorted DecimalString.
Import ListNotations.

Local Open Scope Z_scope.

(* ================================================================== *)
(** * Host-language operations used by the sources *)
(* ================================================================== *)

Module Js.

Section ArraySort.
Context {T : Type}.
Variable compareFn : T -> T -> Z.

(** [Array.prototype.sort] is stable: an element is placed before the
    first element it does not compare greater than. *)
Fixpoint insertSorted (x : T) (l : list T) : list T :=
  match l with
  | [] => [x]
  | y :: l' => if compareFn x y <=? 0 then x :: l else y :: insertSorted x l'
  end.

Definition sort (l : list T) : list T := fold_right insertSorted [] l.

(** The array is in the comparator's order: no element compares greater
    than a later one. *)
Definition ascending (l : list T) : Prop :=
  StronglySorted (fun a b => compareFn a b <= 0) l.
End ArraySort.

(** [new Set(xs)] iterated in insertion order: a value is appended unless it
    is already a member. *)
Definition setAdd (seen : list string) (x : string) : list string :=
  if existsb (String.eqb x) seen then seen else seen ++ [x].

Definition setOf (xs : list string) : list string := fold_left setAdd xs [].

(** [xs.join(sep)] *)
Definition join (sep : string) (xs : list string) : string := String.concat sep xs.

End Js.

(* ================================================================== *)
(** * Conflict resolution *)
(* ================================================================== *)

Module ConflictResolver.

(** interface Interval { start: number; end: number } *)
Class Interval (T : Type) := { start : T -> Z; end_ : T -> Z }.

Record EntityWithScore := mkEntity {
  e_start : Z;
  e_end : Z;
  score : Z;
  entity_type : string
}.

#[export] Instance EntityWithScore_Interval : Interval EntityWithScore :=
  {| start := e_start; end_ := e_end |}.

(** A bare span, as used for secrets. *)
Record Span := mkSpan { s_start : Z; s_end : Z }.

#[export] Instance Span_Interval : Interval Span :=
  {| start := s_start; end_ := s_end |}.

Section Generic.
Context {T : Type} `{Interval T}.

Definition overlaps (a b : T) : bool :=
  (start a <? end_ b) && (start b <? end_ a).

Definition isContainedIn (a b : T) : bool :=
  (start b <=? start a) && (end_ b >=? end_ a).

(** One iteration of the merge loop: [last] is [result[result.length - 1]]
    ([result] is never empty there, so the default of [List.last] is not
    used). *)
Definition mergeStep (merge : T -> T -> T) (result : list T) (current : T) : list T :=
  let last := List.last result current in
  if overlaps current last
  then removelast result ++ [merge last current]
  else result ++ [current].

Definition mergeOverlapping (intervals : list T) (merge : T -> T -> T) : list T :=
  if (List.length intervals <=? 1)%nat then intervals
  else
    match Js.sort (fun a b => start a - start b) intervals with
    | [] => []
    | first :: rest => fold_left (mergeStep merge) rest [first]
    end.

(** The comparator of resolveConflictsSimple. *)
Definition compareSimple (a b : T) : Z :=
  if negb (start a =? start b) then start a - start b
  else end_ b - start b - (end_ a - start a).

Definition simpleStep (result : list T) (current : T) : list T :=
  let last := List.last result current in
  if start current >=? end_ last then result ++ [current] else result.

Definition resolveConflictsSimple (entities : list T) : list T :=
  if (List.length entities <=? 1)%nat then entities
  else
    match Js.sort compareSimple entities with
    | [] => []
    | first :: rest => fold_left simpleStep rest [first]
    end.
End Generic.

(** groupBy: a [Map] from key to group, iterated in key insertion order. *)
Section GroupBy.
Context {T : Type}.

Fixpoint mapPush (key : string) (item : T) (groups : list (string * list T))
  : list (string * list T) :=
  match groups with
  | [] => [(key, [item])]
  | (k, group) :: rest =>
      if String.eqb key k then (k, group ++ [item]) :: rest
      else (k, group) :: mapPush key item rest
  end.

Definition groupBy (items : list T) (keyFn : T -> string) : list (string * list T) :=
  fold_left (fun groups item => mapPush (keyFn item) item groups) items [].
End GroupBy.

Definition compareConflict (a b : EntityWithScore) : Z :=
  if negb (a.(e_start) =? b.(e_start)) then a.(e_start) - b.(e_start)
  else if negb (a.(e_end) =? b.(e_end)) then a.(e_end) - b.(e_end)
  else b.(score) - a.(score).

(** The callback of [result.some(...)]. *)
Definition conflictsWith (entity kept : EntityWithScore) : bool :=
  if (entity.(e_start) =? kept.(e_start)) && (entity.(e_end) =? kept.(e_end))
  then true
  else isContainedIn entity kept.

Definition keepStep (result : list EntityWithScore) (entity : EntityWithScore)
  : list EntityWithScore :=
  let hasConflict := existsb (conflictsWith entity) result in
  if negb hasConflict then result ++ [entity] else result.

Definition removeConflicting (entities : list EntityWithScore) : list EntityWithScore :=
  if (List.length entities <=? 1)%nat then entities
  else fold_left keepStep (Js.sort compareConflict entities) [].

(** The merge callback of resolveConflicts: [{...a, start, end, score}]. *)
Definition mergeEntities (a b : EntityWithScore) : EntityWithScore :=
  {| e_start := Z.min a.(e_start) b.(e_start);
     e_end := Z.max a.(e_end) b.(e_end);
     score := Z.max a.(score) b.(score);
     entity_type := a.(entity_type) |}.

Definition resolveConflicts (entities : list EntityWithScore) : list EntityWithScore :=
  if (List.length entities <=? 1)%nat then entities
  else
    let byType := groupBy entities entity_type in
    let afterMerge :=
      fold_left (fun acc group => acc ++ mergeOverlapping (snd group) mergeEntities)
                byType [] in
    removeConflicting afterMerge.

(** The data-model invariant of a span: [start < end]. *)
Definition valid {T} `{Interval T} (e : T) : Prop := start e < end_ e.

(** No two elements at different positions overlap. *)
Definition PairwiseDisjoint {T} `{Interval T} (l : list T) : Prop :=
  forall i j a b, i <> j -> nth_error l i = Some a -> nth_error l j = Some b ->
    overlaps a b = false.

(** No element is contained in an element at another position. *)
Definition ContainmentFree {T} `{Interval T} (l : list T) : Prop :=
  forall i j e k, i <> j -> nth_error l i = Some e -> nth_error l j = Some k ->
    isContainedIn e k = false.

(** ** Specification predicates *)

(** [a] ends before [b] starts. *)
Definition before (a b : EntityWithScore) : Prop := e_end a <= e_start b.

(** What groupBy computes: the keys are distinct, the group of a key holds
    the items of that key in their input order, and every item is in the
    group of its key. *)
Definition groupsOf {T} (keyFn : T -> string) (groups : list (string * list T))
  (items : list T) : Prop :=
  NoDup (map fst groups) /\
  (forall k g, In (k, g) groups ->
     g = filter (fun x => String.eqb (keyFn x) k) items) /\
  (forall x, In x items -> In (keyFn x) (map fst groups)) /\
  Permutation (List.concat (map snd groups)) items.

(** Two spans of one entity type do not overlap. *)
Definition sameTypeDisjoint (a b : EntityWithScore) : Prop :=
  entity_type a = entity_type b -> overlaps a b = false.

(** The later span [e] does not conflict with the kept span [kept]. *)
Definition noConflict (kept e : EntityWithScore) : Prop :=
  conflictsWith e kept = false.


(** The order resolveConflictsSimple is specified to consider spans in: by
    start ascending, and among spans of one start the longer first. *)
Definition simpleOrder {T} `{Interval T} (a b : T) : Prop :=
  start a < start b \/
  (start a = start b /\ end_ b - start b <= end_ a - start a).

(** The greedy pass as it is specified: a span is kept exactly when it
    starts at or after the end of the last kept span. *)
Fixpoint keepAfter {T} `{Interval T} (lastKept : T) (pending : list T) : list T :=
  match pending with
  | [] => []
  | current :: pending' =>
      if end_ lastKept <=? start current
      then current :: keepAfter current pending'
      else keepAfter lastKept pending'
  end.

Definition greedyKeep {T} `{Interval T} (ordered : list T) : list T :=
  match ordered with
  | [] => []
  | first :: pending => first :: keepAfter first pending
  end.


(** The offset [z] lies in the span [e]: spans are half-open. *)
Definition covers {T} `{Interval T} (e : T) (z : Z) : Prop :=
  start e <= z < end_ e.

(** The offset [z] lies in one of the spans of [l]. *)
Definition covered {T} `{Interval T} (l : list T) (z : Z) : Prop :=
  exists e, In e l /\ covers e z.

(** [a] comes before [b] in the order of (start, end), strictly. *)
Definition startsBefore {T} `{Interval T} (a b : T) : Prop :=
  start a < start b \/ (start a = start b /\ end_ a < end_ b).

(** What a merge loop keeps between the spans it has read, [read], and
    its result: every span read lies in a result span of at least its
    score; a result span has its start, its end and its type from spans
    read, its score from a span read that lies in it, and covers only
    offsets that spans read cover. *)
Definition mergedFrom (read result : list EntityWithScore) : Prop :=
  (forall e, In e read ->
     exists o, In o result /\ isContainedIn e o = true /\ score e <= score o) /\
  (forall o, In o result ->
     (exists e, In e read /\ e_start o = e_start e) /\
     (exists e, In e read /\ e_end o = e_end e) /\
     (exists e, In e read /\ isContainedIn e o = true /\ score o = score e) /\
     (exists e, In e read /\ entity_type o = entity_type e)) /\
  (forall o z, In o result -> covers o z -> covered read z).


End ConflictResolver.

(* ================================================================== *)
(** * Routing decision *)
(* ================================================================== *)

Module RouteDecider.
Import ConflictResolver.

Inductive Provider := upstream | local.

Inductive SecretsAction := block | redact | route_local.

Record PIIDetectionResult := {
  hasPII : bool;
  newEntities : list EntityWithScore;
  entitiesByMessage : list (list EntityWithScore);
  language : string;
  languageFallback : bool;
  scanTimeMs : Z
}.

Record SecretsMatch := { type : string; count : Z }.

Record SecretsRedaction := { r_start : Z; r_end : Z; r_type : string }.

Record SecretsDetectionResult := {
  detected : bool;
  matches : list SecretsMatch;
  redactions : list SecretsRedaction
}.

Record Routing := { default : Provider; on_pii_detected : Provider }.

Record Decision := { provider : Provider; reason : string }.

(** [secretsResult?.detected]: an absent result is not a detection. *)
Definition secretsDetected (secretsResult : option SecretsDetectionResult) : bool :=
  match secretsResult with
  | Some r => detected r
  | None => false
  end.

Definition isRouteLocal (secretsAction : option SecretsAction) : bool :=
  match secretsAction with
  | Some route_local => true
  | _ => false
  end.

Definition decideRoute (piiResult : PIIDetectionResult) (routing : Routing)
  (secretsResult : option SecretsDetectionResult)
  (secretsAction : option SecretsAction) : Decision :=
  if secretsDetected secretsResult && isRouteLocal secretsAction then
    let secretTypes :=
      map type (match secretsResult with Some r => matches r | None => [] end) in
    {| provider := local;
       reason := "Secrets detected (route_local): " ++ Js.join ", " secretTypes |}
  else if hasPII piiResult then
    let entityTypes := Js.setOf (map entity_type (newEntities piiResult)) in
    {| provider := on_pii_detected routing;
       reason := "PII detected: " ++ Js.join ", " entityTypes |}
  else
    {| provider := default routing; reason := "No PII detected" |}.

(** ** Specification *)

(** Deduplication in first-seen order: every value once, at the place of
    its first occurrence. *)
Fixpoint distinctFirstSeen (xs : list string) : list string :=
  match xs with
  | [] => []
  | x :: xs' => x :: filter (fun y => negb (String.eqb y x)) (distinctFirstSeen xs')
  end.

(** Secrets were detected and the configured action is route_local. *)
Definition secretsRouteLocal (secretsResult : option SecretsDetectionResult)
  (secretsAction : option SecretsAction) : Prop :=
  (exists r, secretsResult = Some r /\ detected r = true) /\
  secretsAction = Some route_local.

(** The decision of the PII rules alone. *)
Definition piiDecision (piiResult : PIIDetectionResult) (routing : Routing) : Decision :=
  if hasPII piiResult then
    {| provider := on_pii_detected routing;
       reason := "PII detected: " ++
                 Js.join ", " (distinctFirstSeen (map entity_type (newEntities piiResult))) |}
  else {| provider := default routing; reason := "No PII detected" |}.

(** ** The helpers of the test file *)

(** [xs.map((x, i) => f(x, i))], the index counted from [i]. *)
Fixpoint mapIndexed {A B : Type} (f : A -> Z -> B) (i : Z) (xs : list A) : list B :=
  match xs with
  | [] => []
  | x :: xs' => f x i :: mapIndexed f (i + 1) xs'
  end.

(** createPIIResult: [entities] are given by their entity types; every new
    entity spans 0 to 10 with score 0.9. *)
Definition createPIIResult (hasPII : bool) (entities : list string) : PIIDetectionResult :=
  let newEntities :=
    map (fun e => {| e_start := 0; e_end := 10; score := 90; entity_type := e |})
        entities in
  {| hasPII := hasPII;
     newEntities := newEntities;
     entitiesByMessage := [newEntities];
     language := "en";
     languageFallback := false;
     scanTimeMs := 50 |}.

(** createSecretsResult: one redaction of 50 characters per match, 100
    apart. *)
Definition createSecretsResult (detected : bool) (matches : list SecretsMatch)
  : SecretsDetectionResult :=
  {| detected := detected;
     matches := matches;
     redactions :=
       mapIndexed (fun m i => {| r_start := i * 100; r_end := i * 100 + 50;
                                 r_type := type m |}) 0 matches |}.

#[export] Instance SecretsRedaction_Interval : Interval SecretsRedaction :=
  {| start := r_start; end_ := r_end |}.


End RouteDecider.


(* ================================================================== *)
(** * The unmasking stream *)
(* ================================================================== *)

Module StreamRewriter.

Local Open Scope string_scope.

(** The line feed, as a string and as a character. *)
Definition LF : string := String "010"%char EmptyString.

#[local] Set Warnings "-register-all".

(** ** JavaScript values read from an event payload

    [JSON.parse] yields a value of type [any]; [json] is the type of those
    values.  Numbers of an envelope (index, created) are integers.  The
    fields of an object are kept in property order; a property is looked up
    and assigned at its first entry. *)
Inductive json : Type :=
| JNull
| JBool (b : bool)
| JNum (n : Z)
| JStr (s : string)
| JArr (items : list json)
| JObj (fields : list (string * json)).

(** Truthiness, as tested by [||] and [if]. *)
Definition truthy (v : json) : bool :=
  match v with
  | JNull => false
  | JBool b => b
  | JNum n => negb (n =? 0)%Z
  | JStr s => negb (s =? "")
  | JArr _ => true
  | JObj _ => true
  end.

Fixpoint getField (k : string) (fields : list (string * json)) : option json :=
  match fields with
  | [] => None
  | (k', v) :: rest => if k =? k' then Some v else getField k rest
  end.

(** [v?.k] for a property name that no prototype defines: [None] is
    [undefined]. *)
Definition getProp (v : option json) (k : string) : option json :=
  match v with
  | Some (JObj fields) => getField k fields
  | _ => None
  end.

(** [v?.[0]] *)
Definition getIndex0 (v : option json) : option json :=
  match v with
  | Some (JArr items) => hd_error items
  | Some (JObj fields) => getField "0" fields
  | Some (JStr (String c _)) => Some (JStr (String c ""))
  | _ => None
  end.

(** [parsed.choices?.[0]?.delta?.content || ""].  Reading [choices] of
    [null] throws a TypeError: [None]. *)
Definition deltaContent (parsed : json) : option json :=
  match parsed with
  | JNull => None
  | _ =>
      let content :=
        getProp (getProp (getIndex0 (getProp (Some parsed) "choices")) "delta") "content" in
      Some (match content with
            | Some v => if truthy v then v else JStr ""
            | None => JStr ""
            end)
  end.

Fixpoint updField (k : string) (f : json -> json) (fields : list (string * json))
  : list (string * json) :=
  match fields with
  | [] => []
  | (k', v) :: rest =>
      if k =? k' then (k', f v) :: rest else (k', v) :: updField k f rest
  end.

Definition updProp (k : string) (f : json -> json) (v : json) : json :=
  match v with
  | JObj fields => JObj (updField k f fields)
  | _ => v
  end.

Definition updIndex0 (f : json -> json) (v : json) : json :=
  match v with
  | JArr (x :: items) => JArr (f x :: items)
  | JObj fields => JObj (updField "0" f fields)
  | _ => v
  end.

(** [parsed.choices[0].delta.content = processedContent], reached only
    when that property holds a truthy value. *)
Definition setDeltaContent (parsed : json) (processedContent : json) : json :=
  updProp "choices"
    (updIndex0 (updProp "delta" (updProp "content" (fun _ => processedContent))))
    parsed.

(** ** String operations *)

(** [s.slice(n)] *)
Fixpoint slice (n : nat) (s : string) : string :=
  match n, s with
  | O, _ => s
  | S n', String _ s' => slice n' s'
  | S _, EmptyString => EmptyString
  end.

(** [chunk.split(LF)]: the pieces between line feeds; a text without line
    feed is one piece. *)
Fixpoint split (s : string) : list string :=
  match s with
  | EmptyString => [""]
  | String c s' =>
      if (c =? "010")%char then "" :: split s'
      else match split s' with
           | line :: lines => String c line :: lines
           | [] => [String c ""]
           end
  end.

(** White space and line terminators among the code units below 256. *)
Definition isWhiteSpace (c : ascii) : bool :=
  match nat_of_ascii c with
  | 9 | 10 | 11 | 12 | 13 | 32 | 160 => true
  | _ => false
  end%nat.

Fixpoint trimStart (s : string) : string :=
  match s with
  | String c s' => if isWhiteSpace c then trimStart s' else s
  | EmptyString => EmptyString
  end.

Fixpoint trimEnd (s : string) : string :=
  match s with
  | String c s' =>
      let t := trimEnd s' in
      if isWhiteSpace c && (t =? "") then "" else String c t
  | EmptyString => EmptyString
  end.

Definition trim (s : string) : string := trimEnd (trimStart s).

(** [`${n}`] for an integer. *)
Definition decimal (n : Z) : string := NilZero.string_of_int (Z.to_int n).

(** ** The stream *)

(** The result of unmaskStreamChunk and of unredactStreamChunk. *)
Record StreamChunkResult := { output : string; remainingBuffer : string }.

(** The two carry-over buffers of one stream. *)
Record Buffers := { piiBuffer : string; secretsBuffer : string }.

(** How the source ends: [done], or a rejected read. *)
Inductive SourceEnd (E : Type) : Type :=
| EndOfStream
| ReadError (error : E).
Arguments EndOfStream {E}.
Arguments ReadError {E} error.

(** How the output ends: [controller.close()] or [controller.error(e)]. *)
Inductive StreamEnd (E : Type) : Type :=
| Closed
| Errored (error : E).
Arguments Closed {E}.
Arguments Errored {E} error.

(** What the controller receives: the enqueued texts in order, then the
    end. *)
Record Output (E : Type) := { enqueued : list string; ending : StreamEnd E }.
Arguments enqueued {E} _.
Arguments ending {E} _.


(** The text of a string value. *)
Definition textOf (v : json) : string :=
  match v with
  | JStr s => s
  | _ => ""
  end.



(** A chunk that ends at a line boundary. *)
Definition endsWithLF (chunk : string) : Prop := exists s, chunk = s ++ LF.

(** [JSON.parse] ([None]: a SyntaxError is thrown) and [JSON.stringify]. *)
Class JsonCodec := {
  JSON_parse : string -> option json;
  JSON_stringify : json -> string
}.

(** The interface of ./masking.  The new text is the value read from the
    envelope, of type [any]. *)
Class Masking := {
  MaskingContext : Type;
  MaskingConfig : Type;
  unmaskStreamChunk :
    string -> json -> MaskingContext -> MaskingConfig -> StreamChunkResult;
  flushStreamBuffer : string -> MaskingContext -> MaskingConfig -> string
}.

(** The interface of ../secrets/redact. *)
Class Redaction := {
  RedactionContext : Type;
  unredactStreamChunk : string -> json -> RedactionContext -> StreamChunkResult;
  flushRedactionBuffer : string -> RedactionContext -> string
}.

(** The text received in [chunks]. *)
Fixpoint concatText (chunks : list string) : string :=
  match chunks with
  | [] => ""
  | chunk :: rest => chunk ++ concatText rest
  end.

Section CreateUnmaskingStream.
Context {codec : JsonCodec} {masking : Masking} {redaction : Redaction}.
Context {Error : Type}.

Variable piiContext : option MaskingContext.
Variable config : MaskingConfig.
Variable secretsContext : option RedactionContext.

(** The two steps applied to a truthy content: PII first, then secrets
    on the output of the PII step, unless that output is empty. *)
Definition unmaskContent (st : Buffers) (content : json) : Buffers * json :=
  let '(piiBuffer1, processed1) :=
    match piiContext with
    | Some ctx =>
        let r := unmaskStreamChunk (piiBuffer st) content ctx config in
        (remainingBuffer r, JStr (output r))
    | None => (piiBuffer st, content)
    end in
  let '(secretsBuffer1, processed2) :=
    match secretsContext with
    | Some ctx =>
        if truthy processed1 then
          let r := unredactStreamChunk (secretsBuffer st) processed1 ctx in
          (remainingBuffer r, JStr (output r))
        else (secretsBuffer st, processed1)
    | None => (secretsBuffer st, processed1)
    end in
  ({| piiBuffer := piiBuffer1; secretsBuffer := secretsBuffer1 |}, processed2).

(** The body of the loop over the lines of a chunk: the new buffers and
    the texts enqueued for this line. *)
Definition processLine (st : Buffers) (line : string) : Buffers * list string :=
  if prefix "data: " line then
    let data := slice 6 line in
    if data =? "[DONE]" then (st, ["data: [DONE]" ++ LF ++ LF])
    else
      match JSON_parse data with
      | None => (st, [line ++ LF])
      | Some parsed =>
          match deltaContent parsed with
          | None => (st, [line ++ LF])
          | Some content =>
              if truthy content then
                let '(st', processedContent) := unmaskContent st content in
                if truthy processedContent then
                  (st', ["data: " ++
                         JSON_stringify (setDeltaContent parsed processedContent) ++
                         LF ++ LF])
                else (st', [])
              else (st, ["data: " ++ data ++ LF ++ LF])
          end
      end
  else if negb (trim line =? "") then (st, [line ++ LF])
  else (st, []).

Definition processLines (lines : list string) (acc : Buffers * list string)
  : Buffers * list string :=
  fold_left
    (fun acc line =>
       let '(st', emitted) := processLine (fst acc) line in
       (st', (snd acc ++ emitted)%list))
    lines acc.

(** One read that returns a chunk, already decoded to text. *)
Definition processChunk (acc : Buffers * list string) (chunk : string)
  : Buffers * list string :=
  processLines (split chunk) acc.

(** The text flushed when the source is done. *)
Definition flushBuffers (st : Buffers) : string :=
  let flushed :=
    if negb (piiBuffer st =? "") then
      match piiContext with
      | Some ctx => flushStreamBuffer (piiBuffer st) ctx config
      | None => piiBuffer st
      end
    else "" in
  if negb (secretsBuffer st =? "") then
    match secretsContext with
    | Some ctx => flushed ++ flushRedactionBuffer (secretsBuffer st) ctx
    | None => flushed ++ secretsBuffer st
    end
  else flushed.

(** The final event; [nowId] and [nowCreated] are the two readings of
    [Date.now()]. *)
Definition finalEvent (nowId nowCreated : Z) (flushed : string) : json :=
  JObj [("id", JStr ("flush-" ++ decimal nowId));
        ("object", JStr "chat.completion.chunk");
        ("created", JNum (nowCreated / 1000));
        ("choices",
          JArr [JObj [("index", JNum 0);
                      ("delta", JObj [("content", JStr flushed)]);
                      ("finish_reason", JNull)]])].

Definition flushEvents (nowId nowCreated : Z) (st : Buffers) : list string :=
  let flushed := flushBuffers st in
  if negb (flushed =? "") then
    ["data: " ++ JSON_stringify (finalEvent nowId nowCreated flushed) ++ LF ++ LF]
  else [].

Definition emptyBuffers : Buffers := {| piiBuffer := ""; secretsBuffer := "" |}.

(** The loop over the successful reads: [chunks] are their texts in
    order. *)
Definition readChunks (chunks : list string) : Buffers * list string :=
  fold_left processChunk chunks (emptyBuffers, []).

(** The stream: the reads that return [chunks], then [sourceEnd], the
    outcome of the read after them.  A chunk is the text that
    [decoder.decode(value, { stream: true })] returns for a read, an
    enqueued text is the argument of [encoder.encode], and the output is
    the sequence of calls on the controller. *)
Definition createUnmaskingStream (nowId nowCreated : Z)
  (chunks : list string) (sourceEnd : SourceEnd Error) : Output Error :=
  let '(st, out) := readChunks chunks in
  match sourceEnd with
  | EndOfStream =>
      {| enqueued := (out ++ flushEvents nowId nowCreated st)%list; ending := Closed |}
  | ReadError error =>
      {| enqueued := out; ending := Errored error |}
  end.

(** ** Specification of a stream of content events *)




(** The frame an envelope is enqueued in. *)
Definition frame (envelope : json) : string :=
  "data: " ++ JSON_stringify envelope ++ LF ++ LF.
End CreateUnmaskingStream.

End StreamRewriter.


(* ================================================================== *)
(** * Reference collaborators

    Concrete instances of what the stream takes from outside, used to run
    it on examples: a writer and a reader for the JSON of envelopes whose
    numbers are integers and whose strings use the two-character escapes
    (fractions, exponents and unicode escapes are not read), and a masking
    context. *)
(* ================================================================== *)

Module Reference.
Import StreamRewriter.

Local Open Scope string_scope.

Definition quote : ascii := "034"%char.
Definition backslash : ascii := "092"%char.

(** *** Writing JSON *)

Fixpoint escape (s : string) : string :=
  match s with
  | EmptyString => ""
  | String c s' =>
      if (c =? quote)%char then String backslash (String quote (escape s'))
      else if (c =? backslash)%char then String backslash (String backslash (escape s'))
      else if (c =? "010")%char then String backslash (String "n" (escape s'))
      else if (c =? "013")%char then String backslash (String "r" (escape s'))
      else if (c =? "009")%char then String backslash (String "t" (escape s'))
      else String c (escape s')
  end.

Definition quoted (s : string) : string :=
  String quote (escape s ++ String quote "").

Fixpoint stringify (v : json) : string :=
  match v with
  | JNull => "null"
  | JBool true => "true"
  | JBool false => "false"
  | JNum n => decimal n
  | JStr s => quoted s
  | JArr items => "[" ++ String.concat "," (map stringify items) ++ "]"
  | JObj fields =>
      "{" ++ String.concat ","
               (map (fun kv => quoted (fst kv) ++ ":" ++ stringify (snd kv)) fields)
          ++ "}"
  end.

(** *** Reading JSON *)

(** The white space of JSON: tab, line feed, carriage return, space. *)
Definition isJsonSpace (c : ascii) : bool :=
  match nat_of_ascii c with
  | 9 | 10 | 13 | 32 => true
  | _ => false
  end%nat.

Fixpoint skipSpaces (s : string) : string :=
  match s with
  | String c s' => if isJsonSpace c then skipSpaces s' else s
  | EmptyString => EmptyString
  end.

(** The characters of a string literal after its opening quote. *)
Fixpoint readString (s : string) : option (string * string) :=
  match s with
  | EmptyString => None
  | String c s' =>
      if (c =? quote)%char then Some ("", s')
      else if (c =? backslash)%char then
        match s' with
        | String e s'' =>
            let unescaped :=
              if (e =? "n")%char then Some "010"%char
              else if (e =? "t")%char then Some "009"%char
              else if (e =? "r")%char then Some "013"%char
              else if (e =? quote)%char then Some quote
              else if (e =? backslash)%char then Some backslash
              else if (e =? "/")%char then Some "/"%char
              else None in
            match unescaped, readString s'' with
            | Some u, Some (str, rest) => Some (String u str, rest)
            | _, _ => None
            end
        | EmptyString => None
        end
      else if (nat_of_ascii c <? 32)%nat then None
      else
        match readString s' with
        | Some (str, rest) => Some (String c str, rest)
        | None => None
        end
  end.

Definition isDigit (c : ascii) : bool :=
  (48 <=? nat_of_ascii c)%nat && (nat_of_ascii c <=? 57)%nat.

Fixpoint readDigits (acc : Z) (s : string) : Z * string :=
  match s with
  | String c s' =>
      if isDigit c then readDigits (10 * acc + Z.of_nat (nat_of_ascii c - 48)) s'
      else (acc, s)
  | EmptyString => (acc, s)
  end.

(** Digits without a superfluous leading zero. *)
Definition readNatural (s : string) : option (Z * string) :=
  match s with
  | String "0" (String c _) => if isDigit c then None else Some (readDigits 0 s)
  | String c _ => if isDigit c then Some (readDigits 0 s) else None
  | EmptyString => None
  end.

(** An integer: an optional minus sign and digits. *)
Definition readNumber (s : string) : option (Z * string) :=
  match s with
  | String "-" s' =>
      match readNatural s' with
      | Some (n, rest) => Some (- n, rest)%Z
      | None => None
      end
  | _ => readNatural s
  end.

Fixpoint readValue (fuel : nat) (s : string) : option (json * string) :=
  match fuel with
  | O => None
  | S fuel' =>
      match skipSpaces s with
      | String "n" (String "u" (String "l" (String "l" rest))) => Some (JNull, rest)
      | String "t" (String "r" (String "u" (String "e" rest))) => Some (JBool true, rest)
      | String "f" (String "a" (String "l" (String "s" (String "e" rest)))) =>
          Some (JBool false, rest)
      | String "[" rest =>
          match skipSpaces rest with
          | String "]" rest' => Some (JArr [], rest')
          | _ =>
              match readItems fuel' rest with
              | Some (items, rest') => Some (JArr items, rest')
              | None => None
              end
          end
      | String "{" rest =>
          match skipSpaces rest with
          | String "}" rest' => Some (JObj [], rest')
          | _ =>
              match readMembers fuel' rest with
              | Some (fields, rest') => Some (JObj fields, rest')
              | None => None
              end
          end
      | String c rest =>
          if (c =? quote)%char then
            match readString rest with
            | Some (str, rest') => Some (JStr str, rest')
            | None => None
            end
          else
            match readNumber (String c rest) with
            | Some (n, rest') => Some (JNum n, rest')
            | None => None
            end
      | EmptyString => None
      end
  end
with readItems (fuel : nat) (s : string) : option (list json * string) :=
  match fuel with
  | O => None
  | S fuel' =>
      match readValue fuel' s with
      | Some (v, rest) =>
          match skipSpaces rest with
          | String "," rest' =>
              match readItems fuel' rest' with
              | Some (items, rest'') => Some (v :: items, rest'')
              | None => None
              end
          | String "]" rest' => Some ([v], rest')
          | _ => None
          end
      | None => None
      end
  end
with readMembers (fuel : nat) (s : string) : option (list (string * json) * string) :=
  match fuel with
  | O => None
  | S fuel' =>
      match skipSpaces s with
      | String c rest =>
          if (c =? quote)%char then
            match readString rest with
            | Some (key, rest1) =>
                match skipSpaces rest1 with
                | String ":" rest2 =>
                    match readValue fuel' rest2 with
                    | Some (v, rest3) =>
                        match skipSpaces rest3 with
                        | String "," rest4 =>
                            match readMembers fuel' rest4 with
                            | Some (fields, rest5) => Some ((key, v) :: fields, rest5)
                            | None => None
                            end
                        | String "}" rest4 => Some ([(key, v)], rest4)
                        | _ => None
                        end
                    | None => None
                    end
                | _ => None
                end
            | None => None
            end
          else None
      | EmptyString => None
      end
  end.

(** The whole text must be one value. *)
Definition parse (s : string) : option json :=
  match readValue (S (String.length s)) s with
  | Some (v, rest) => if skipSpaces rest =? "" then Some v else None
  | None => None
  end.

(** *** A masking context

    Modelled from the spec: unmaskStreamChunk and flushStreamBuffer of
    ./masking (and their secrets counterparts), which are not among the
    sources.  A context maps token names to original values; a placeholder
    token is written [<NAME>].  A chunk step scans buffer + new text,
    replaces the complete tokens, and withholds the suffix that starts an
    incomplete token. *)
Definition Placeholders := list (string * string).

Fixpoint original (ctx : Placeholders) (name : string) : option string :=
  match ctx with
  | [] => None
  | (n, v) :: rest => if name =? n then Some v else original rest name
  end.

(** [pending] is the name read so far of a token that has been opened. *)
Fixpoint scan (ctx : Placeholders) (pending : option string) (s : string)
  : StreamChunkResult :=
  match s with
  | EmptyString =>
      {| output := "";
         remainingBuffer := match pending with Some p => "<" ++ p | None => "" end |}
  | String c s' =>
      match pending with
      | None =>
          if (c =? "<")%char then scan ctx (Some "") s'
          else let r := scan ctx None s' in
               {| output := String c (output r); remainingBuffer := remainingBuffer r |}
      | Some p =>
          if (c =? ">")%char then
            let r := scan ctx None s' in
            {| output := match original ctx p with
                         | Some v => v
                         | None => "<" ++ p ++ ">"
                         end ++ output r;
               remainingBuffer := remainingBuffer r |}
          else if (c =? "<")%char then
            let r := scan ctx (Some "") s' in
            {| output := "<" ++ p ++ output r; remainingBuffer := remainingBuffer r |}
          else scan ctx (Some (p ++ String c "")) s'
      end
  end.

Definition codec : JsonCodec := {| JSON_parse := parse; JSON_stringify := stringify |}.

Definition masking : Masking :=
  {| MaskingContext := Placeholders;
     MaskingConfig := unit;
     unmaskStreamChunk := fun buffer newText ctx _ => scan ctx None (buffer ++ textOf newText);
     flushStreamBuffer := fun buffer ctx _ =>
       let r := scan ctx None buffer in output r ++ remainingBuffer r |}.

Definition redaction : Redaction :=
  {| RedactionContext := Placeholders;
     unredactStreamChunk := fun buffer newText ctx => scan ctx None (buffer ++ textOf newText);
     flushRedactionBuffer := fun buffer ctx =>
       let r := scan ctx None buffer in output r ++ remainingBuffer r |}.


(** The stream over the reference collaborators; read errors are texts. *)
Definition stream (piiContext secretsContext : option Placeholders)
  (chunks : list string) (sourceEnd : SourceEnd string) : Output string :=
  createUnmaskingStream (codec := codec) (masking := masking) (redaction := redaction)
    piiContext tt secretsContext 1700000000123 1700000000124 chunks sourceEnd.

(** An event envelope carrying [text], its event and its data line. *)
Definition envelope (text : string) : json :=
  JObj [("id", JStr "c1");
        ("choices", JArr [JObj [("index", JNum 0);
                                ("delta", JObj [("content", JStr text)]);
                                ("finish_reason", JNull)]])].


Definition eventLine (text : string) : string :=
  "data: " ++ stringify (envelope text).

(** A context with one person, and a data line whose content holds that
    person's token, cut inside the token. *)
Definition alice : Placeholders := [("P1", "Alice")].





End Reference.


(* ================================================================== *)
(** * Facts about the host-language operations *)
(* ================================================================== *)

Module JsFacts.
Import Js.

Section Pairwise.
Context {T : Type} (R : T -> T -> Prop).

Lemma StronglySorted_app_iff (l1 l2 : list T) :
  StronglySorted R (l1 ++ l2) <->
  StronglySorted R l1 /\ StronglySorted R l2 /\
  (forall a b, In a l1 -> In b l2 -> R a b).
Proof.
  induction l1 as [|x l1 IH]; simpl.
  - split.
    + intros Hs. repeat split; [constructor | exact Hs | intros a b []].
    + intros (_ & Hs & _). exact Hs.
  - split.
    + intros Hs. apply StronglySorted_inv in Hs. destruct Hs as [Hs Hx].
      apply IH in Hs. destruct Hs as (H1 & H2 & H12).
      rewrite Forall_app in Hx. destruct Hx as [Hx1 Hx2].
      repeat split.
      * constructor; assumption.
      * assumption.
      * intros a b [<- | Ha] Hb.
        -- rewrite Forall_forall in Hx2. now apply Hx2.
        -- now apply H12.
    + intros (H1 & H2 & H12).
      apply StronglySorted_inv in H1. destruct H1 as [H1 Hx].
      constructor.
      * apply IH. repeat split; auto.
      * rewrite Forall_app. split; [exact Hx|].
        rewrite Forall_forall. intros b Hb. apply H12; auto.
Qed.

Lemma StronglySorted_snoc (l : list T) (x : T) :
  StronglySorted R l -> Forall (fun a => R a x) l -> StronglySorted R (l ++ [x]).
Proof.
  intros Hs Hx. apply StronglySorted_app_iff. repeat split.
  - exact Hs.
  - repeat constructor.
  - intros a b Ha [<- | []]. rewrite Forall_forall in Hx. now apply Hx.
Qed.

Lemma StronglySorted_drop_middle (l1 l2 : list T) (x : T) :
  StronglySorted R (l1 ++ x :: l2) -> StronglySorted R (l1 ++ l2).
Proof.
  rewrite !StronglySorted_app_iff. intros (H1 & H2 & H12).
  apply StronglySorted_inv in H2. destruct H2 as [H2 _].
  repeat split; auto. intros a b Ha Hb. apply H12; simpl; auto.
Qed.

Lemma StronglySorted_filter (f : T -> bool) (l : list T) :
  StronglySorted R l -> StronglySorted R (filter f l).
Proof.
  induction 1 as [|a l Hs IH Ha]; simpl.
  - constructor.
  - destruct (f a); [|exact IH].
    constructor; [exact IH|].
    rewrite Forall_forall in *. intros b Hb. apply filter_In in Hb. now apply Ha.
Qed.

Lemma StronglySorted_nth (l : list T) :
  StronglySorted R l ->
  forall i j a b, (i < j)%nat -> nth_error l i = Some a -> nth_error l j = Some b -> R a b.
Proof.
  induction 1 as [|x l Hs IH Hx]; intros i j a b Hij Hi Hj.
  - destruct i; discriminate.
  - destruct j as [|j]; [lia|]. simpl in Hj.
    destruct i as [|i]; simpl in Hi.
    + injection Hi as <-. rewrite Forall_forall in Hx.
      apply Hx. eapply nth_error_In; eauto.
    + apply (IH i j a b); [lia | exact Hi | exact Hj].
Qed.

Lemma StronglySorted_In (l : list T) :
  StronglySorted R l ->
  forall a b, In a l -> In b l -> a = b \/ R a b \/ R b a.
Proof.
  induction 1 as [|x l Hs IH Hx]; intros a b Ha Hb.
  - destruct Ha.
  - rewrite Forall_forall in Hx.
    destruct Ha as [<- | Ha], Hb as [<- | Hb]; auto.
Qed.

Lemma StronglySorted_perm (l l' : list T) :
  (forall a b, R a b -> R b a) ->
  Permutation l l' -> StronglySorted R l -> StronglySorted R l'.
Proof.
  intros Hsym Hp. induction Hp as [|x l l' Hp IH|x y l|l l' l'' Hp1 IH1 Hp2 IH2]; intros Hs.
  - constructor.
  - apply StronglySorted_inv in Hs. destruct Hs as [Hs Hx].
    constructor; [auto|]. eapply Permutation_Forall; eauto.
  - apply StronglySorted_inv in Hs. destruct Hs as [Hs Hy].
    apply StronglySorted_inv in Hs. destruct Hs as [Hs Hx].
    apply Forall_inv in Hy as Hyx. apply Forall_inv_tail in Hy.
    repeat constructor; auto.
  - auto.
Qed.

(** Two sorted arrangements of the same elements coincide when the order
    separates the elements. *)
Lemma sorted_perm_unique (l1 l2 : list T) :
  StronglySorted R l1 -> StronglySorted R l2 -> Permutation l1 l2 ->
  (forall a b, In a l1 -> In b l1 -> R a b -> R b a -> a = b) ->
  l1 = l2.
Proof.
  revert l2. induction l1 as [|a l1 IH]; intros l2 H1 H2 Hp Hanti.
  - apply Permutation_nil in Hp. now subst.
  - destruct l2 as [|b l2].
    + apply Permutation_sym, Permutation_nil in Hp. discriminate.
    + apply StronglySorted_inv in H1. destruct H1 as [H1 Ha].
      apply StronglySorted_inv in H2. destruct H2 as [H2 Hb].
      rewrite Forall_forall in Ha, Hb.
      assert (Hab : a = b).
      { assert (Hin1 : In a (b :: l2)) by (eapply Permutation_in; [exact Hp|now left]).
        assert (Hin2 : In b (a :: l1))
          by (eapply Permutation_in; [apply Permutation_sym; exact Hp|now left]).
        destruct Hin1 as [Hin1 | Hin1]; [now subst|].
        destruct Hin2 as [Hin2 | Hin2]; [now subst|].
        apply Hanti; [now left | now right | now apply Ha | now apply Hb]. }
      subst b. f_equal. apply IH; auto.
      * eapply Permutation_cons_inv; eauto.
      * intros x y Hx Hy. apply Hanti; now right.
Qed.
End Pairwise.

Section SortFacts.
Context {T : Type} (cmp : T -> T -> Z).

Lemma insertSorted_perm (x : T) (l : list T) :
  Permutation (insertSorted cmp x l) (x :: l).
Proof.
  induction l as [|y l IH]; simpl.
  - reflexivity.
  - destruct (cmp x y <=? 0).
    + reflexivity.
    + rewrite IH. apply perm_swap.
Qed.

Lemma sort_perm (l : list T) : Permutation (sort cmp l) l.
Proof.
  induction l as [|x l IH]; simpl.
  - reflexivity.
  - rewrite insertSorted_perm. now constructor.
Qed.

Lemma sort_length (l : list T) : List.length (sort cmp l) = List.length l.
Proof. apply Permutation_length, sort_perm. Qed.

(** An array that is already in order is left as it is. *)
Lemma sort_sorted_id (l : list T) : ascending cmp l -> sort cmp l = l.
Proof.
  unfold ascending. induction 1 as [|x l Hs IH Hx]; simpl.
  - reflexivity.
  - rewrite IH. destruct l as [|y l]; simpl.
    + reflexivity.
    + apply Forall_inv in Hx. apply Z.leb_le in Hx. now rewrite Hx.
Qed.

Hypothesis cmp_total : forall a b, cmp a b <= 0 \/ cmp b a <= 0.
Hypothesis cmp_trans : forall a b c, cmp a b <= 0 -> cmp b c <= 0 -> cmp a c <= 0.

Lemma insertSorted_sorted (x : T) (l : list T) :
  ascending cmp l -> ascending cmp (insertSorted cmp x l).
Proof.
  unfold ascending. induction 1 as [|y l Hs IH Hy]; simpl.
  - repeat constructor.
  - destruct (cmp x y <=? 0) eqn:E.
    + apply Z.leb_le in E. constructor.
      * now constructor.
      * constructor; [exact E|].
        rewrite Forall_forall in *. intros z Hz. eapply cmp_trans; eauto.
    + apply Z.leb_gt in E. constructor; [exact IH|].
      eapply Permutation_Forall; [apply Permutation_sym, insertSorted_perm|].
      constructor; [|exact Hy].
      destruct (cmp_total y x); [assumption | lia].
Qed.

Lemma sort_sorted (l : list T) : ascending cmp (sort cmp l).
Proof.
  induction l as [|x l IH]; simpl.
  - constructor.
  - now apply insertSorted_sorted.
Qed.
End SortFacts.

End JsFacts.

(* ================================================================== *)
(** * Conflict resolution: facts *)
(* ================================================================== *)

Module ConflictResolverFacts.
Import Js JsFacts ConflictResolver.

(** ** Interval geometry *)

Lemma overlaps_sym {T} `{Interval T} (a b : T) : overlaps a b = overlaps b a.
Proof. unfold overlaps. apply andb_comm. Qed.

Lemma overlaps_false_after {T} `{Interval T} (last current : T) :
  valid current -> start last <= start current ->
  overlaps current last = false -> end_ last <= start current.
Proof.
  unfold overlaps, valid. intros Hv Hle Ho.
  apply andb_false_iff in Ho. destruct Ho as [Ho | Ho]; apply Z.ltb_ge in Ho; lia.
Qed.

Lemma before_not_overlaps {T} `{Interval T} (a b : T) :
  end_ a <= start b -> overlaps a b = false /\ overlaps b a = false.
Proof.
  unfold overlaps. intros Hb. split; apply andb_false_iff.
  - right. apply Z.ltb_ge. exact Hb.
  - left. apply Z.ltb_ge. exact Hb.
Qed.

Lemma StronglySorted_short {T} (R : T -> T -> Prop) (l : list T) :
  (List.length l <= 1)%nat -> StronglySorted R l.
Proof.
  destruct l as [|a [|b l]]; simpl; intros Hl.
  - constructor.
  - repeat constructor.
  - lia.
Qed.

Lemma StronglySorted_impl_In {T} (R R' : T -> T -> Prop) (l : list T) :
  (forall a b, In a l -> In b l -> R a b -> R' a b) ->
  StronglySorted R l -> StronglySorted R' l.
Proof.
  intros Himp Hs. induction Hs as [|x l Hs IH Hx].
  - constructor.
  - constructor.
    + apply IH. intros a b Ha Hb. apply Himp; now right.
    + rewrite Forall_forall in *. intros b Hb. apply Himp; simpl; auto.
Qed.

Lemma StronglySorted_conj {T} (R R' : T -> T -> Prop) (l : list T) :
  StronglySorted R l -> StronglySorted R' l ->
  StronglySorted (fun a b => R a b /\ R' a b) l.
Proof.
  induction 1 as [|x l Hs IH Hx]; intros Hs'.
  - constructor.
  - apply StronglySorted_inv in Hs'. destruct Hs' as [Hs' Hx'].
    constructor; [auto|].
    rewrite Forall_forall in *. intros b Hb. split; auto.
Qed.

(** ** The comparators are consistent orderings *)

Lemma compareConflict_total (a b : EntityWithScore) :
  compareConflict a b <= 0 \/ compareConflict b a <= 0.
Proof.
  unfold compareConflict.
  destruct (Z.eqb_spec (e_start a) (e_start b)), (Z.eqb_spec (e_start b) (e_start a)),
    (Z.eqb_spec (e_end a) (e_end b)), (Z.eqb_spec (e_end b) (e_end a)); simpl; lia.
Qed.

Lemma compareConflict_trans (a b c : EntityWithScore) :
  compareConflict a b <= 0 -> compareConflict b c <= 0 -> compareConflict a c <= 0.
Proof.
  unfold compareConflict.
  destruct (Z.eqb_spec (e_start a) (e_start b)), (Z.eqb_spec (e_start b) (e_start c)),
    (Z.eqb_spec (e_start a) (e_start c)), (Z.eqb_spec (e_end a) (e_end b)),
    (Z.eqb_spec (e_end b) (e_end c)), (Z.eqb_spec (e_end a) (e_end c)); simpl; lia.
Qed.

Lemma compareConflict_antisym (a b : EntityWithScore) :
  compareConflict a b < 0 -> 0 < compareConflict b a.
Proof.
  unfold compareConflict.
  destruct (Z.eqb_spec (e_start a) (e_start b)), (Z.eqb_spec (e_start b) (e_start a)),
    (Z.eqb_spec (e_end a) (e_end b)), (Z.eqb_spec (e_end b) (e_end a)); simpl; lia.
Qed.

Lemma compareConflict_start (a b : EntityWithScore) :
  compareConflict a b <= 0 -> e_start a <= e_start b.
Proof.
  unfold compareConflict.
  destruct (Z.eqb_spec (e_start a) (e_start b)); simpl; lia.
Qed.

Lemma compareConflict_zero_conflict (a b : EntityWithScore) :
  compareConflict a b <= 0 -> conflictsWith b a = false -> compareConflict a b < 0.
Proof.
  unfold compareConflict, conflictsWith.
  destruct (Z.eqb_spec (e_start a) (e_start b)) as [Es|Es]; simpl; [|lia].
  destruct (Z.eqb_spec (e_end a) (e_end b)) as [Ee|Ee]; simpl; [|lia].
  rewrite Es, Ee, !Z.eqb_refl. simpl. discriminate.
Qed.

Section CompareStart.
Context {T : Type} `{Interval T}.

Lemma compareStart_total (a b : T) :
  start a - start b <= 0 \/ start b - start a <= 0.
Proof. lia. Qed.

Lemma compareStart_trans (a b c : T) :
  start a - start b <= 0 -> start b - start c <= 0 -> start a - start c <= 0.
Proof. lia. Qed.

Lemma compareSimple_total (a b : T) :
  compareSimple a b <= 0 \/ compareSimple b a <= 0.
Proof.
  unfold compareSimple.
  destruct (Z.eqb_spec (start a) (start b)), (Z.eqb_spec (start b) (start a));
    simpl; lia.
Qed.

Lemma compareSimple_trans (a b c : T) :
  compareSimple a b <= 0 -> compareSimple b c <= 0 -> compareSimple a c <= 0.
Proof.
  unfold compareSimple.
  destruct (Z.eqb_spec (start a) (start b)), (Z.eqb_spec (start b) (start c)),
    (Z.eqb_spec (start a) (start c)); simpl; lia.
Qed.
End CompareStart.

(** ** The merge loop of mergeOverlapping *)

Section MergeLoop.
Context {T : Type} `{Interval T}.
Variable merge : T -> T -> T.

Lemma mergeStep_snoc (init : list T) (last current : T) :
  mergeStep merge (init ++ [last]) current =
  if overlaps current last then init ++ [merge last current]
  else (init ++ [last]) ++ [current].
Proof.
  unfold mergeStep. now rewrite last_last, removelast_last.
Qed.

(** Spans that are in start order and never overlap their predecessor are
    returned as they are. *)
Lemma merge_fold_id (rest init : list T) (last : T) :
  StronglySorted (fun a b => overlaps b a = false) (last :: rest) ->
  fold_left (mergeStep merge) rest (init ++ [last]) = init ++ last :: rest.
Proof.
  revert init last. induction rest as [|cur rest IH]; intros init last Hs.
  - reflexivity.
  - simpl. rewrite mergeStep_snoc.
    apply StronglySorted_inv in Hs. destruct Hs as [Hs Hl].
    apply Forall_inv in Hl. rewrite Hl.
    rewrite IH by exact Hs. now rewrite <- app_assoc.
Qed.

Lemma mergeOverlapping_id (l : list T) :
  ascending (fun a b => start a - start b) l ->
  StronglySorted (fun a b => overlaps b a = false) l ->
  mergeOverlapping l merge = l.
Proof.
  intros Hasc Hs. unfold mergeOverlapping.
  destruct (List.length l <=? 1)%nat; [reflexivity|].
  rewrite sort_sorted_id by exact Hasc.
  destruct l as [|first rest]; [reflexivity|].
  apply (merge_fold_id rest [] first Hs).
Qed.
End MergeLoop.

(** Merging one group: the result is a chain of valid spans, each ending
    before the next one starts, all of the group's type. *)
Lemma merge_fold_chain (t : string) (rest init : list EntityWithScore) (last : EntityWithScore) :
  Forall valid (init ++ [last]) ->
  Forall (fun e => entity_type e = t) (init ++ [last]) ->
  StronglySorted before (init ++ [last]) ->
  Forall valid rest ->
  Forall (fun e => entity_type e = t) rest ->
  Forall (fun c => e_start last <= e_start c) rest ->
  ascending (fun a b : EntityWithScore => start a - start b) rest ->
  let out := fold_left (mergeStep mergeEntities) rest (init ++ [last]) in
  StronglySorted before out /\ Forall valid out /\ Forall (fun e => entity_type e = t) out.
Proof.
  revert init last.
  induction rest as [|cur rest IH]; intros init last Hv Ht Hs Hvr Htr Hge Hasc; simpl.
  - auto.
  - rewrite mergeStep_snoc.
    apply Forall_inv in Hvr as Hvc. apply Forall_inv_tail in Hvr.
    apply Forall_inv in Htr as Htc. apply Forall_inv_tail in Htr.
    apply Forall_inv in Hge as Hgc. apply Forall_inv_tail in Hge.
    apply StronglySorted_inv in Hasc. destruct Hasc as [Hasc Hcur].
    rewrite Forall_app in Hv, Ht. destruct Hv as [Hvi Hvl], Ht as [Hti Htl].
    apply Forall_inv in Hvl, Htl.
    apply StronglySorted_app_iff in Hs. destruct Hs as (Hsi & _ & Hil).
    unfold valid in Hvc, Hvl. simpl in Hvc, Hvl.
    destruct (overlaps cur last) eqn:Ho.
    + apply IH; auto.
      * rewrite Forall_app. split; [exact Hvi|]. repeat constructor.
        unfold valid. simpl. lia.
      * rewrite Forall_app. split; [exact Hti|]. repeat constructor. exact Htl.
      * apply StronglySorted_snoc; [exact Hsi|].
        rewrite Forall_forall. intros a Ha.
        specialize (Hil a last Ha (or_introl eq_refl)).
        unfold before in *. simpl. lia.
      * rewrite Forall_forall in *. intros c Hc.
        specialize (Hge c Hc). simpl. lia.
    + assert (Hb : end_ last <= start cur)
        by (apply (overlaps_false_after last cur); [exact Hvc | exact Hgc | exact Ho]).
      simpl in Hb.
      apply IH; auto.
      * rewrite !Forall_app. repeat split; auto; repeat constructor; assumption.
      * rewrite !Forall_app. repeat split; auto; repeat constructor; assumption.
      * apply StronglySorted_snoc.
        -- apply StronglySorted_app_iff. repeat split; auto. repeat constructor.
        -- rewrite Forall_app. split.
           ++ rewrite Forall_forall. intros a Ha.
              specialize (Hil a last Ha (or_introl eq_refl)).
              unfold before in *. lia.
           ++ repeat constructor. exact Hb.
      * rewrite Forall_forall in *. intros c Hc.
        specialize (Hcur c Hc). simpl in Hcur. lia.
Qed.

Lemma mergeOverlapping_chain (t : string) (group : list EntityWithScore) :
  Forall valid group ->
  Forall (fun e => entity_type e = t) group ->
  let merged := mergeOverlapping group mergeEntities in
  StronglySorted before merged /\ Forall valid merged /\
  Forall (fun e => entity_type e = t) merged.
Proof.
  intros Hv Ht. unfold mergeOverlapping.
  destruct (List.length group <=? 1)%nat eqn:El.
  - apply Nat.leb_le in El. simpl. repeat split; auto.
    now apply StronglySorted_short.
  - set (cmp := fun a b : EntityWithScore => start a - start b).
    pose proof (sort_perm cmp group) as Hp.
    pose proof (sort_sorted cmp compareStart_total compareStart_trans group) as Hs.
    assert (Hv' : Forall valid (sort cmp group))
      by (eapply Permutation_Forall; [apply Permutation_sym; exact Hp | exact Hv]).
    assert (Ht' : Forall (fun e => entity_type e = t) (sort cmp group))
      by (eapply Permutation_Forall; [apply Permutation_sym; exact Hp | exact Ht]).
    destruct (sort cmp group) as [|first rest].
    + simpl. repeat split; constructor.
    + apply StronglySorted_inv in Hs. destruct Hs as [Hs Hf].
      apply (merge_fold_chain t rest [] first); simpl.
      * repeat constructor. now apply Forall_inv in Hv'.
      * repeat constructor. now apply Forall_inv in Ht'.
      * repeat constructor.
      * now apply Forall_inv_tail in Hv'.
      * now apply Forall_inv_tail in Ht'.
      * rewrite Forall_forall in *. intros c Hc. specialize (Hf c Hc).
        unfold cmp in Hf. simpl in Hf. lia.
      * exact Hs.
Qed.

(** ** groupBy *)

Section GroupByFacts.
Context {T : Type} (keyFn : T -> string).

Lemma mapPush_keys (k : string) (x : T) (groups : list (string * list T)) :
  map fst (mapPush k x groups) = setAdd (map fst groups) k.
Proof.
  unfold setAdd. induction groups as [|[k0 g0] rest IH]; simpl.
  - reflexivity.
  - destruct (String.eqb k k0); simpl.
    + reflexivity.
    + rewrite IH. now destruct (existsb (String.eqb k) (map fst rest)).
Qed.

Lemma setAdd_NoDup (seen : list string) (k : string) :
  NoDup seen -> NoDup (setAdd seen k).
Proof.
  intros Hn. unfold setAdd.
  destruct (existsb (String.eqb k) seen) eqn:E; [exact Hn|].
  apply NoDup_rev in Hn. rewrite <- (rev_involutive (seen ++ [k])).
  apply NoDup_rev. rewrite rev_app_distr. simpl. constructor; [|exact Hn].
  intros Hin. apply in_rev in Hin.
  assert (existsb (String.eqb k) seen = true)
    by (apply existsb_exists; exists k; split; [exact Hin | apply String.eqb_refl]).
  congruence.
Qed.

Lemma setAdd_In (seen : list string) (k x : string) :
  In x (setAdd seen k) <-> In x seen \/ x = k.
Proof.
  unfold setAdd. destruct (existsb (String.eqb k) seen) eqn:E.
  - split; [auto|]. intros [Hx | ->]; [exact Hx|].
    apply existsb_exists in E. destruct E as (y & Hy & E).
    apply String.eqb_eq in E. now subst.
  - rewrite in_app_iff. simpl. intuition.
Qed.

Lemma mapPush_In (k : string) (x : T) (groups : list (string * list T)) :
  NoDup (map fst groups) ->
  forall k' g', In (k', g') (mapPush k x groups) ->
    (k' = k /\ exists g, In (k, g) groups /\ g' = g ++ [x]) \/
    (k' <> k /\ In (k', g') groups) \/
    (k' = k /\ g' = [x] /\ ~ In k (map fst groups)).
Proof.
  induction groups as [|[k0 g0] rest IH]; simpl; intros Hn k' g' Hin.
  - destruct Hin as [Hin | []]. injection Hin as <- <-. right. right. auto.
  - apply NoDup_cons_iff in Hn. destruct Hn as [Hk0 Hn].
    destruct (String.eqb_spec k k0) as [-> | Hne].
    + destruct Hin as [Hin | Hin].
      * injection Hin as <- <-. left. split; [reflexivity|]. exists g0. auto.
      * right. left. split; [|now right].
        intros ->. apply Hk0. apply (in_map fst) in Hin. exact Hin.
    + destruct Hin as [Hin | Hin].
      * injection Hin as <- <-. right. left. split; [congruence | now left].
      * destruct (IH Hn k' g' Hin) as [(-> & g & Hg & ->) | [(Hk & Hg) | (-> & -> & Hk)]].
        -- left. split; [reflexivity|]. exists g. auto.
        -- right. left. auto.
        -- right. right. repeat split; auto. intros [E | E]; [congruence | auto].
Qed.

Lemma mapPush_perm (k : string) (x : T) (groups : list (string * list T)) :
  Permutation (List.concat (map snd (mapPush k x groups))) (x :: List.concat (map snd groups)).
Proof.
  induction groups as [|[k0 g0] rest IH]; simpl.
  - reflexivity.
  - destruct (String.eqb k k0); simpl.
    + rewrite <- app_assoc. simpl. apply Permutation_sym, Permutation_middle.
    + rewrite IH. apply Permutation_sym, Permutation_middle.
Qed.

Lemma filter_none (f : T -> bool) (l : list T) :
  (forall y, In y l -> f y = false) -> filter f l = [].
Proof.
  induction l as [|y l IH]; simpl; intros Hf.
  - reflexivity.
  - rewrite (Hf y) by now left. apply IH. intros z Hz. apply Hf. now right.
Qed.

Lemma mapPush_groupsOf (x : T) (groups : list (string * list T)) (processed : list T) :
  groupsOf keyFn groups processed ->
  groupsOf keyFn (mapPush (keyFn x) x groups) (processed ++ [x]).
Proof.
  intros (Hn & Hg & Hk & Hp). repeat split.
  - rewrite mapPush_keys. now apply setAdd_NoDup.
  - intros k' g' Hin. rewrite filter_app. simpl.
    destruct (mapPush_In (keyFn x) x groups Hn k' g' Hin)
      as [(-> & g & Hin' & ->) | [(Hne & Hin') | (-> & -> & Hnot)]].
    + rewrite String.eqb_refl. f_equal. now apply Hg.
    + destruct (String.eqb_spec (keyFn x) k'); [congruence|].
      rewrite app_nil_r. now apply Hg.
    + rewrite String.eqb_refl.
      rewrite filter_none; [reflexivity|].
      intros y Hy. apply String.eqb_neq. intros E.
      apply Hnot. rewrite <- E. now apply Hk.
  - intros y Hy. rewrite mapPush_keys. apply setAdd_In.
    apply in_app_iff in Hy. destruct Hy as [Hy | [<- | []]]; auto.
  - rewrite mapPush_perm. rewrite Hp. apply Permutation_cons_append.
Qed.

Lemma groupBy_fold (items : list T) (groups : list (string * list T)) (processed : list T) :
  groupsOf keyFn groups processed ->
  groupsOf keyFn
    (fold_left (fun groups item => mapPush (keyFn item) item groups) items groups)
    (processed ++ items).
Proof.
  revert groups processed. induction items as [|x items IH]; intros groups processed Hg; simpl.
  - now rewrite app_nil_r.
  - replace (processed ++ x :: items) with ((processed ++ [x]) ++ items)
      by (now rewrite <- app_assoc).
    apply IH. now apply mapPush_groupsOf.
Qed.

Lemma groupBy_groupsOf (items : list T) : groupsOf keyFn (groupBy items keyFn) items.
Proof.
  apply (groupBy_fold items [] []). repeat split.
  - constructor.
  - intros k g [].
  - intros x [].
  - reflexivity.
Qed.
End GroupByFacts.

(** ** The keep loop of removeConflicting *)

Lemma keepStep_cases (result : list EntityWithScore) (entity : EntityWithScore) :
  (existsb (conflictsWith entity) result = true /\ keepStep result entity = result) \/
  (Forall (fun kept => noConflict kept entity) result /\
   keepStep result entity = result ++ [entity]).
Proof.
  unfold keepStep, noConflict.
  destruct (existsb (conflictsWith entity) result) eqn:E; simpl.
  - left. auto.
  - right. split; [|reflexivity].
    rewrite Forall_forall. intros kept Hk.
    destruct (conflictsWith entity kept) eqn:C; [|reflexivity].
    assert (existsb (conflictsWith entity) result = true)
      by (apply existsb_exists; eauto).
    congruence.
Qed.

(** Any ordering of the kept spans followed by the pending ones survives
    the loop: the result is a subsequence. *)
Lemma keep_fold_sorted (R : EntityWithScore -> EntityWithScore -> Prop)
  (rest result : list EntityWithScore) :
  StronglySorted R (result ++ rest) ->
  StronglySorted R (fold_left keepStep rest result).
Proof.
  revert result. induction rest as [|e rest IH]; intros result Hs; simpl.
  - now rewrite app_nil_r in Hs.
  - apply IH. destruct (keepStep_cases result e) as [[_ ->] | [_ ->]].
    + eapply StronglySorted_drop_middle; eauto.
    + now rewrite <- app_assoc.
Qed.

Lemma keep_fold_Forall (P : EntityWithScore -> Prop) (rest result : list EntityWithScore) :
  Forall P result -> Forall P rest -> Forall P (fold_left keepStep rest result).
Proof.
  revert result. induction rest as [|e rest IH]; intros result Hr Hrest; simpl.
  - exact Hr.
  - apply Forall_inv in Hrest as He. apply Forall_inv_tail in Hrest.
    apply IH; [|exact Hrest].
    destruct (keepStep_cases result e) as [[_ ->] | [_ ->]]; [exact Hr|].
    rewrite Forall_app. split; [exact Hr | now repeat constructor].
Qed.

(** No kept span conflicts with a span kept before it. *)
Lemma keep_fold_noConflict (rest result : list EntityWithScore) :
  StronglySorted noConflict result ->
  StronglySorted noConflict (fold_left keepStep rest result).
Proof.
  revert result. induction rest as [|e rest IH]; intros result Hs; simpl.
  - exact Hs.
  - apply IH. destruct (keepStep_cases result e) as [[_ ->] | [Hno ->]]; [exact Hs|].
    now apply StronglySorted_snoc.
Qed.

(** Spans none of which conflicts with an earlier one are all kept. *)
Lemma keep_fold_id (rest result : list EntityWithScore) :
  StronglySorted noConflict (result ++ rest) ->
  fold_left keepStep rest result = result ++ rest.
Proof.
  revert result. induction rest as [|e rest IH]; intros result Hs; simpl.
  - now rewrite app_nil_r.
  - destruct (keepStep_cases result e) as [[Hex _] | [_ ->]].
    + exfalso. apply existsb_exists in Hex. destruct Hex as (kept & Hk & Hc).
      apply StronglySorted_app_iff in Hs. destruct Hs as (_ & _ & Hcross).
      specialize (Hcross kept e Hk (or_introl eq_refl)).
      unfold noConflict in Hcross. congruence.
    + rewrite IH by (now rewrite <- app_assoc). now rewrite <- app_assoc.
Qed.

Lemma removeConflicting_sorted (R : EntityWithScore -> EntityWithScore -> Prop)
  (entities : list EntityWithScore) :
  (forall a b, R a b -> R b a) ->
  StronglySorted R entities -> StronglySorted R (removeConflicting entities).
Proof.
  intros Hsym Hs. unfold removeConflicting.
  destruct (List.length entities <=? 1)%nat; [exact Hs|].
  apply keep_fold_sorted. simpl.
  eapply StronglySorted_perm; [exact Hsym | apply Permutation_sym, sort_perm | exact Hs].
Qed.

Lemma removeConflicting_Forall (P : EntityWithScore -> Prop) (entities : list EntityWithScore) :
  Forall P entities -> Forall P (removeConflicting entities).
Proof.
  intros Hp. unfold removeConflicting.
  destruct (List.length entities <=? 1)%nat; [exact Hp|].
  apply keep_fold_Forall; [constructor|].
  eapply Permutation_Forall; [apply Permutation_sym, sort_perm | exact Hp].
Qed.

Lemma removeConflicting_ascending (entities : list EntityWithScore) :
  ascending compareConflict (removeConflicting entities) /\
  StronglySorted noConflict (removeConflicting entities).
Proof.
  unfold removeConflicting.
  destruct (List.length entities <=? 1)%nat eqn:El.
  - apply Nat.leb_le in El. split; now apply StronglySorted_short.
  - split.
    + apply keep_fold_sorted. simpl.
      apply sort_sorted; [apply compareConflict_total | apply compareConflict_trans].
    + apply keep_fold_noConflict. constructor.
Qed.

(** ** The merged groups, concatenated *)

Lemma afterMerge_flat_map (byType : list (string * list EntityWithScore))
  (acc : list EntityWithScore) :
  fold_left (fun acc group => acc ++ mergeOverlapping (snd group) mergeEntities) byType acc
  = acc ++ flat_map (fun group => mergeOverlapping (snd group) mergeEntities) byType.
Proof.
  revert acc. induction byType as [|g byType IH]; intros acc; simpl.
  - now rewrite app_nil_r.
  - rewrite IH. now rewrite <- app_assoc.
Qed.

Lemma sameTypeDisjoint_sym (a b : EntityWithScore) :
  sameTypeDisjoint a b -> sameTypeDisjoint b a.
Proof.
  unfold sameTypeDisjoint. intros Hab E. rewrite overlaps_sym. apply Hab. congruence.
Qed.

Lemma afterMerge_disjoint (entities : list EntityWithScore) :
  Forall valid entities ->
  let afterMerge :=
    flat_map (fun group => mergeOverlapping (snd group) mergeEntities)
             (groupBy entities entity_type) in
  StronglySorted sameTypeDisjoint afterMerge /\ Forall valid afterMerge.
Proof.
  intros Hv.
  destruct (groupBy_groupsOf entity_type entities) as (Hn & Hg & _ & _).
  assert (Hgroups : forall k g, In (k, g) (groupBy entities entity_type) ->
            Forall valid g /\ Forall (fun e => entity_type e = k) g).
  { intros k g Hin. rewrite (Hg k g Hin). split.
    - rewrite Forall_forall in *. intros e He. apply filter_In in He. now apply Hv.
    - rewrite Forall_forall. intros e He. apply filter_In in He.
      now apply String.eqb_eq. }
  clear Hg. revert Hn Hgroups.
  generalize (groupBy entities entity_type) as groups.
  induction groups as [|[k g] groups IH]; intros Hn Hgroups; simpl.
  - split; constructor.
  - apply NoDup_cons_iff in Hn. destruct Hn as [Hk Hn].
    destruct (Hgroups k g (or_introl eq_refl)) as [Hvg Htg].
    destruct (mergeOverlapping_chain k g Hvg Htg) as (Hchain & Hvm & Htm).
    destruct IH as [IHs IHv]; [exact Hn | intros k' g' Hin; apply Hgroups; now right |].
    split; [|rewrite Forall_app; auto].
    apply StronglySorted_app_iff. repeat split.
    + eapply StronglySorted_impl_In; [|exact Hchain].
      intros a b _ _ Hb _. exact (proj1 (before_not_overlaps a b Hb)).
    + exact IHs.
    + intros a b Ha Hb E. exfalso. apply Hk.
      rewrite Forall_forall in Htm. rewrite <- (Htm a Ha), E.
      apply in_flat_map in Hb. destruct Hb as ([k' g'] & Hin & Hb). simpl in Hb.
      destruct (Hgroups k' g' (or_intror Hin)) as [Hvg' Htg'].
      destruct (mergeOverlapping_chain k' g' Hvg' Htg') as (_ & _ & Htm').
      rewrite Forall_forall in Htm'. rewrite (Htm' b Hb).
      apply (in_map fst) in Hin. exact Hin.
Qed.

(** The resolved list: spans of one type are disjoint, and all are valid. *)
Lemma resolveConflicts_sameTypeDisjoint (entities : list EntityWithScore) :
  Forall valid entities ->
  StronglySorted sameTypeDisjoint (resolveConflicts entities) /\
  Forall valid (resolveConflicts entities).
Proof.
  intros Hv. unfold resolveConflicts.
  destruct (List.length entities <=? 1)%nat eqn:El.
  - apply Nat.leb_le in El. split; [now apply StronglySorted_short | exact Hv].
  - cbv zeta. rewrite afterMerge_flat_map. simpl.
    destruct (afterMerge_disjoint entities Hv) as [Hs Hva].
    split.
    + apply removeConflicting_sorted; [apply sameTypeDisjoint_sym | exact Hs].
    + now apply removeConflicting_Forall.
Qed.

(** ** A resolved list is a fixed point *)

Lemma flat_map_snd_id (groups : list (string * list EntityWithScore)) :
  (forall k g, In (k, g) groups -> mergeOverlapping g mergeEntities = g) ->
  flat_map (fun group => mergeOverlapping (snd group) mergeEntities) groups
  = List.concat (map snd groups).
Proof.
  induction groups as [|[k g] groups IH]; simpl; intros Hid.
  - reflexivity.
  - rewrite (Hid k g) by now left. f_equal. apply IH.
    intros k' g' Hin. apply (Hid k'). now right.
Qed.

Lemma resolveConflicts_fixed (y : list EntityWithScore) :
  StronglySorted sameTypeDisjoint y ->
  StronglySorted noConflict y ->
  ascending compareConflict y ->
  resolveConflicts y = y.
Proof.
  intros Hdis Hno Hasc. unfold resolveConflicts.
  destruct (List.length y <=? 1)%nat eqn:El; [reflexivity|].
  cbv zeta. rewrite afterMerge_flat_map. simpl.
  destruct (groupBy_groupsOf entity_type y) as (_ & Hg & _ & Hperm).
  rewrite flat_map_snd_id.
  2:{ intros k g Hin. rewrite (Hg k g Hin). apply mergeOverlapping_id.
      - apply StronglySorted_filter.
        eapply StronglySorted_impl_In; [|exact Hasc].
        intros a b _ _ Hab. apply compareConflict_start in Hab. simpl. lia.
      - eapply StronglySorted_impl_In; [|apply StronglySorted_filter; exact Hdis].
        intros a b Ha Hb Hab. apply filter_In in Ha, Hb.
        destruct Ha as [_ Ha], Hb as [_ Hb].
        apply String.eqb_eq in Ha, Hb.
        rewrite overlaps_sym. apply Hab. congruence. }
  set (afterMerge := List.concat (map snd (groupBy y entity_type))) in *.
  unfold removeConflicting.
  rewrite (Permutation_length Hperm), El.
  assert (Hsort : sort compareConflict afterMerge = y).
  { apply (sorted_perm_unique (fun a b => compareConflict a b <= 0)).
    - apply sort_sorted; [apply compareConflict_total | apply compareConflict_trans].
    - exact Hasc.
    - rewrite sort_perm. exact Hperm.
    - intros a b Ha Hb Hab Hba.
      assert (Hay : In a y)
        by (eapply Permutation_in; [|exact Ha]; rewrite sort_perm; exact Hperm).
      assert (Hby : In b y)
        by (eapply Permutation_in; [|exact Hb]; rewrite sort_perm; exact Hperm).
      assert (Hstrict : StronglySorted (fun a b => compareConflict a b < 0) y).
      { eapply StronglySorted_impl_In;
          [|apply (StronglySorted_conj _ _ y Hasc Hno)].
        intros c d _ _ [Hle Hnc]. now apply compareConflict_zero_conflict. }
      destruct (StronglySorted_In _ y Hstrict a b Hay Hby) as [E | [Hlt | Hlt]].
      + exact E.
      + apply compareConflict_antisym in Hlt. lia.
      + apply compareConflict_antisym in Hlt. lia. }
  rewrite Hsort. apply (keep_fold_id y []). exact Hno.
Qed.

(** ** The claims about resolveConflicts *)




(** C3 at its failing input: two spans that start together are sorted by
    end ascending, so the shorter PERSON span is kept first and the longer
    LOCATION span, which contains it, is kept as well. *)
Theorem resolveConflicts_keeps_contained_span :
  resolveConflicts [mkEntity 0 5 90 "PERSON"; mkEntity 0 8 90 "LOCATION"]
  = [mkEntity 0 5 90 "PERSON"; mkEntity 0 8 90 "LOCATION"]
  /\ isContainedIn (mkEntity 0 5 90 "PERSON") (mkEntity 0 8 90 "LOCATION") = true
  /\ ~ ContainmentFree
        (resolveConflicts [mkEntity 0 5 90 "PERSON"; mkEntity 0 8 90 "LOCATION"]).
Proof.
  repeat split.
  intros Hclaim.
  specialize (Hclaim 0%nat 1%nat (mkEntity 0 5 90 "PERSON") (mkEntity 0 8 90 "LOCATION")).
  discriminate Hclaim; [intros E; discriminate E | reflexivity | reflexivity].
Qed.

(** C7: resolveConflicts is idempotent on entity spans (start < end):
    resolving a resolved list returns it unchanged. *)
Theorem resolveConflicts_idempotent (x : list EntityWithScore) :
  Forall valid x ->
  resolveConflicts (resolveConflicts x) = resolveConflicts x.
Proof.
  intros Hv.
  destruct (resolveConflicts_sameTypeDisjoint x Hv) as [Hdis _].
  apply resolveConflicts_fixed; [exact Hdis | |].
  - unfold resolveConflicts.
    destruct (List.length x <=? 1)%nat eqn:El.
    + apply Nat.leb_le in El. now apply StronglySorted_short.
    + apply removeConflicting_ascending.
  - unfold resolveConflicts.
    destruct (List.length x <=? 1)%nat eqn:El.
    + apply Nat.leb_le in El. now apply StronglySorted_short.
    + apply removeConflicting_ascending.
Qed.

Lemma resolveConflicts_idempotent_witness :
  Forall valid
    [mkEntity 10 12 70 "PERSON"; mkEntity 3 8 95 "PERSON";
     mkEntity 4 9 80 "LOCATION"; mkEntity 0 5 90 "PERSON"; mkEntity 4 6 99 "EMAIL_ADDRESS"]
  /\ resolveConflicts
       (resolveConflicts
          [mkEntity 10 12 70 "PERSON"; mkEntity 3 8 95 "PERSON";
           mkEntity 4 9 80 "LOCATION"; mkEntity 0 5 90 "PERSON";
           mkEntity 4 6 99 "EMAIL_ADDRESS"])
     = [mkEntity 0 8 95 "PERSON"; mkEntity 4 9 80 "LOCATION"; mkEntity 10 12 70 "PERSON"].
Proof.
  assert (Hv : Forall valid
    [mkEntity 10 12 70 "PERSON"; mkEntity 3 8 95 "PERSON";
     mkEntity 4 9 80 "LOCATION"; mkEntity 0 5 90 "PERSON"; mkEntity 4 6 99 "EMAIL_ADDRESS"])
    by (repeat constructor).
  split; [exact Hv|].
  rewrite (resolveConflicts_idempotent _ Hv). reflexivity.
Defined.

(** ** resolveConflictsSimple *)

Section SimpleLoop.
Context {T : Type} `{Interval T}.

Lemma simple_fold (rest init : list T) (last : T) :
  fold_left simpleStep rest (init ++ [last]) = init ++ last :: keepAfter last rest.
Proof.
  revert init last. induction rest as [|cur rest IH]; intros init last; simpl.
  - reflexivity.
  - unfold simpleStep at 2. rewrite last_last, Z.geb_leb.
    destruct (end_ last <=? start cur).
    + rewrite IH. now rewrite <- app_assoc.
    + apply IH.
Qed.

Lemma compareSimple_order (a b : T) : compareSimple a b <= 0 -> simpleOrder a b.
Proof.
  unfold compareSimple, simpleOrder.
  destruct (Z.eqb_spec (start a) (start b)); simpl; lia.
Qed.

Lemma simpleOrder_compare (a b : T) : simpleOrder a b -> compareSimple a b <= 0.
Proof.
  unfold compareSimple, simpleOrder.
  destruct (Z.eqb_spec (start a) (start b)); simpl; lia.
Qed.

Lemma resolveConflictsSimple_greedy (entities : list T) :
  exists ordered,
    Permutation ordered entities /\
    StronglySorted simpleOrder ordered /\
    resolveConflictsSimple entities = greedyKeep ordered.
Proof.
  unfold resolveConflictsSimple.
  destruct (List.length entities <=? 1)%nat eqn:El.
  - apply Nat.leb_le in El. exists entities. repeat split.
    + reflexivity.
    + now apply StronglySorted_short.
    + destruct entities as [|a [|b l]]; simpl in *; [reflexivity | reflexivity | lia].
  - exists (sort compareSimple entities). repeat split.
    + apply sort_perm.
    + eapply StronglySorted_impl_In;
        [|apply (sort_sorted compareSimple compareSimple_total compareSimple_trans)].
      intros a b _ _. apply compareSimple_order.
    + destruct (sort compareSimple entities) as [|first rest]; [reflexivity|].
      apply (simple_fold rest [] first).
Qed.

Lemma resolveConflictsSimple_pair (a b : T) :
  simpleOrder a b ->
  resolveConflictsSimple [a; b] = if start b >=? end_ a then [a; b] else [a].
Proof.
  intros Hab. apply simpleOrder_compare in Hab. apply Z.leb_le in Hab.
  unfold resolveConflictsSimple. simpl. rewrite Hab. simpl.
  unfold simpleStep. simpl. now destruct (start b >=? end_ a).
Qed.
End SimpleLoop.

(** C6: resolveConflictsSimple considers the spans by start ascending and,
    among equal starts, by length descending, and keeps a span exactly when
    its start is at or after the end of the last kept span; so of two spans
    in that order the second is kept when it touches or follows the first
    and dropped when it overlaps it, and [{0,10},{5,15}] yields [{0,10}]. *)
Theorem resolveConflictsSimple_sorted_greedy :
  (forall (T : Type) (I : Interval T) (entities : list T),
     exists ordered,
       Permutation ordered entities /\
       StronglySorted simpleOrder ordered /\
       resolveConflictsSimple entities = greedyKeep ordered) /\
  (forall (T : Type) (I : Interval T) (a b : T),
     simpleOrder a b ->
     (end_ a <= start b -> resolveConflictsSimple [a; b] = [a; b]) /\
     (start b < end_ a -> resolveConflictsSimple [a; b] = [a])) /\
  resolveConflictsSimple [mkSpan 0 10; mkSpan 5 15] = [mkSpan 0 10] /\
  resolveConflictsSimple [mkSpan 0 10; mkSpan 10 15] = [mkSpan 0 10; mkSpan 10 15] /\
  resolveConflictsSimple [mkSpan 5 15; mkSpan 0 4; mkSpan 0 10] = [mkSpan 0 10].
Proof.
  split; [|split; [|repeat split]].
  - intros T I entities. apply resolveConflictsSimple_greedy.
  - intros T I a b Hab. rewrite (resolveConflictsSimple_pair a b Hab). split; intros Hc.
    + apply Z.geb_le in Hc. now rewrite Hc.
    + destruct (start b >=? end_ a) eqn:E; [|reflexivity].
      apply Z.geb_le in E. lia.
Qed.

Lemma resolveConflictsSimple_sorted_greedy_witness :
  simpleOrder (mkSpan 0 10) (mkSpan 10 15) /\
  resolveConflictsSimple [mkSpan 0 10; mkSpan 10 15] = [mkSpan 0 10; mkSpan 10 15].
Proof.
  assert (Ho : simpleOrder (mkSpan 0 10) (mkSpan 10 15)) by (left; reflexivity).
  split; [exact Ho|].
  apply (proj1 (proj1 (proj2 resolveConflictsSimple_sorted_greedy)
                  Span Span_Interval (mkSpan 0 10) (mkSpan 10 15) Ho)).
  simpl. lia.
Defined.


(** ** Examples from the specification *)

Example merge_same_type :
  resolveConflicts [mkEntity 0 5 90 "PERSON"; mkEntity 3 8 95 "PERSON"]
  = [mkEntity 0 8 95 "PERSON"].
Proof. reflexivity. Qed.

Example tie_break_same_span :
  resolveConflicts [mkEntity 0 5 90 "PERSON"; mkEntity 0 5 95 "LOCATION"]
  = [mkEntity 0 5 95 "LOCATION"].
Proof. reflexivity. Qed.

(* ------------------------------------------------------------------ *)
(** ** Further properties of the resolvers *)
(* ------------------------------------------------------------------ *)

Lemma isContainedIn_refl {T} `{Interval T} (a : T) : isContainedIn a a = true.
Proof.
  unfold isContainedIn. apply andb_true_iff. split.
  - apply Z.leb_le. lia.
  - apply Z.geb_le. lia.
Qed.

Lemma isContainedIn_spec {T} `{Interval T} (a b : T) :
  isContainedIn a b = true <-> start b <= start a /\ end_ a <= end_ b.
Proof.
  unfold isContainedIn. rewrite andb_true_iff, Z.leb_le, Z.geb_le. tauto.
Qed.

Lemma isContainedIn_trans {T} `{Interval T} (a b c : T) :
  isContainedIn a b = true -> isContainedIn b c = true -> isContainedIn a c = true.
Proof. rewrite !isContainedIn_spec. lia. Qed.

Lemma overlaps_spec {T} `{Interval T} (a b : T) :
  overlaps a b = true <-> start a < end_ b /\ start b < end_ a.
Proof. unfold overlaps. rewrite andb_true_iff, !Z.ltb_lt. tauto. Qed.

Lemma covers_contained {T} `{Interval T} (a b : T) (z : Z) :
  isContainedIn a b = true -> covers a z -> covers b z.
Proof. rewrite isContainedIn_spec. unfold covers. lia. Qed.

Lemma conflictsWith_contained (entity kept : EntityWithScore) :
  conflictsWith entity kept = true -> isContainedIn entity kept = true.
Proof.
  unfold conflictsWith.
  destruct ((e_start entity =? e_start kept) && (e_end entity =? e_end kept)) eqn:E;
    [|auto].
  intros _. apply andb_true_iff in E. destruct E as [Es Ee].
  apply Z.eqb_eq in Es, Ee. apply isContainedIn_spec. simpl. lia.
Qed.

Lemma conflictsWith_false (entity kept : EntityWithScore) :
  conflictsWith entity kept = false ->
  isContainedIn entity kept = false /\
  ~ (e_start entity = e_start kept /\ e_end entity = e_end kept).
Proof.
  unfold conflictsWith.
  destruct ((e_start entity =? e_start kept) && (e_end entity =? e_end kept)) eqn:E;
    [discriminate|].
  intros Hc. split; [exact Hc|]. intros [Es Ee].
  rewrite Es, Ee, !Z.eqb_refl in E. discriminate.
Qed.

(** *** The merge loop, span by span *)

Lemma mergedFrom_refl (l : list EntityWithScore) : mergedFrom l l.
Proof.
  split; [|split].
  - intros e He. exists e. repeat split; [exact He | apply isContainedIn_refl | lia].
  - intros o Ho.
    split; [|split; [|split]]; exists o; repeat split; auto using isContainedIn_refl.
  - intros o z Ho Hz. exists o. auto.
Qed.

Lemma mergedFrom_perm (read read' result : list EntityWithScore) :
  (forall e, In e read <-> In e read') ->
  mergedFrom read result -> mergedFrom read' result.
Proof.
  intros Heq (H1 & H2 & H3). split; [|split].
  - intros e He. apply H1. now apply Heq.
  - intros o Ho.
    destruct (H2 o Ho) as ((e1 & He1 & E1) & (e2 & He2 & E2) &
                           (e3 & He3 & Hc3 & E3) & (e4 & He4 & E4)).
    split; [|split; [|split]].
    + exists e1. split; [now apply Heq | exact E1].
    + exists e2. split; [now apply Heq | exact E2].
    + exists e3. repeat split; [now apply Heq | exact Hc3 | exact E3].
    + exists e4. split; [now apply Heq | exact E4].
  - intros o z Ho Hz. destruct (H3 o z Ho Hz) as (e & He & Hc).
    exists e. split; [now apply Heq | exact Hc].
Qed.

Lemma mergeEntities_contains (a b : EntityWithScore) :
  isContainedIn a (mergeEntities a b) = true /\
  isContainedIn b (mergeEntities a b) = true.
Proof. rewrite !isContainedIn_spec. simpl. lia. Qed.

(** Two overlapping spans cover what their merge covers. *)
Lemma mergeEntities_covers (last current : EntityWithScore) (z : Z) :
  overlaps current last = true ->
  covers (mergeEntities last current) z -> covers last z \/ covers current z.
Proof.
  rewrite overlaps_spec. unfold covers. simpl. lia.
Qed.

Lemma mergedFrom_read_more (read result : list EntityWithScore) (current : EntityWithScore) :
  (forall o, In o result ->
     (exists e, In e read /\ e_start o = e_start e) /\
     (exists e, In e read /\ e_end o = e_end e) /\
     (exists e, In e read /\ isContainedIn e o = true /\ score o = score e) /\
     (exists e, In e read /\ entity_type o = entity_type e)) ->
  forall o, In o result ->
     (exists e, In e (current :: read) /\ e_start o = e_start e) /\
     (exists e, In e (current :: read) /\ e_end o = e_end e) /\
     (exists e, In e (current :: read) /\ isContainedIn e o = true /\ score o = score e) /\
     (exists e, In e (current :: read) /\ entity_type o = entity_type e).
Proof.
  intros H2 o Ho.
  destruct (H2 o Ho) as ((e1 & He1 & E1) & (e2 & He2 & E2) &
                         (e3 & He3 & Hc3 & E3) & (e4 & He4 & E4)).
  split; [|split; [|split]].
  - exists e1. split; [now right | exact E1].
  - exists e2. split; [now right | exact E2].
  - exists e3. repeat split; [now right | exact Hc3 | exact E3].
  - exists e4. split; [now right | exact E4].
Qed.

Lemma mergeStep_mergedFrom (read init : list EntityWithScore) (last current : EntityWithScore) :
  mergedFrom read (init ++ [last]) ->
  mergedFrom (current :: read) (mergeStep mergeEntities (init ++ [last]) current).
Proof.
  intros (H1 & H2 & H3). rewrite mergeStep_snoc.
  destruct (mergeEntities_contains last current) as [Hcl Hcc].
  assert (Hlast : In last (init ++ [last])) by (apply in_or_app; right; now left).
  assert (Hinit : forall o, In o init -> In o (init ++ [last]))
    by (intros o Ho; apply in_or_app; now left).
  destruct (overlaps current last) eqn:Ho.
  - destruct (H2 last Hlast) as ((es & Hes & Es) & (ee & Hee & Ee) &
                                 (esc & Hesc & Hcsc & Esc) & (et & Het & Et)).
    split; [|split].
    + intros e [<- | He].
      * exists (mergeEntities last current). repeat split.
        -- apply in_or_app. right. now left.
        -- exact Hcc.
        -- simpl. lia.
      * destruct (H1 e He) as (o & Ho' & Hc & Hs).
        apply in_app_or in Ho'. destruct Ho' as [Hi | [<- | []]].
        -- exists o. repeat split; auto. apply in_or_app. now left.
        -- exists (mergeEntities last current). repeat split.
           ++ apply in_or_app. right. now left.
           ++ eapply isContainedIn_trans; eauto.
           ++ simpl. lia.
    + intros o Hin. apply in_app_or in Hin. destruct Hin as [Hi | [<- | []]].
      * apply (mergedFrom_read_more read (init ++ [last]) current H2 o (Hinit o Hi)).
      * split; [|split; [|split]].
        -- simpl. destruct (Z.min_spec (e_start last) (e_start current)) as [[_ ->] | [_ ->]].
           ++ exists es. split; [now right | exact Es].
           ++ exists current. split; [now left | reflexivity].
        -- simpl. destruct (Z.max_spec (e_end last) (e_end current)) as [[_ ->] | [_ ->]].
           ++ exists current. split; [now left | reflexivity].
           ++ exists ee. split; [now right | exact Ee].
        -- simpl. destruct (Z.max_spec (score last) (score current)) as [[_ E] | [_ E]].
           ++ exists current. repeat split; [now left | exact Hcc | exact E].
           ++ exists esc. repeat split; [now right | | lia].
              eapply isContainedIn_trans; eauto.
        -- exists et. split; [now right | exact Et].
    + intros o z Hin Hz. apply in_app_or in Hin. destruct Hin as [Hi | [<- | []]].
      * destruct (H3 o z (Hinit o Hi) Hz) as (e & He & Hc).
        exists e. split; [now right | exact Hc].
      * destruct (mergeEntities_covers last current z Ho Hz) as [Hc | Hc].
        -- destruct (H3 last z Hlast Hc) as (e & He & Hce).
           exists e. split; [now right | exact Hce].
        -- exists current. split; [now left | exact Hc].
  - split; [|split].
    + intros e [<- | He].
      * exists current. repeat split; [apply in_or_app; right; now left
                                      | apply isContainedIn_refl | lia].
      * destruct (H1 e He) as (o & Ho' & Hc & Hs).
        exists o. repeat split; auto. apply in_or_app. now left.
    + intros o Hin. apply in_app_or in Hin. destruct Hin as [Hi | [<- | []]].
      * apply (mergedFrom_read_more read (init ++ [last]) current H2 o Hi).
      * split; [|split; [|split]]; exists current; repeat split;
          auto using isContainedIn_refl, in_eq.
    + intros o z Hin Hz. apply in_app_or in Hin. destruct Hin as [Hi | [<- | []]].
      * destruct (H3 o z Hi Hz) as (e & He & Hc). exists e. split; [now right | exact Hc].
      * exists current. split; [now left | exact Hz].
Qed.

Lemma merge_fold_mergedFrom (rest read init : list EntityWithScore) (last : EntityWithScore) :
  mergedFrom read (init ++ [last]) ->
  mergedFrom (rev rest ++ read)
    (fold_left (mergeStep mergeEntities) rest (init ++ [last])).
Proof.
  revert read init last. induction rest as [|cur rest IH]; intros read init last Hm.
  - exact Hm.
  - simpl fold_left. simpl rev. rewrite <- app_assoc. simpl app.
    pose proof (mergeStep_mergedFrom read init last cur Hm) as Hstep.
    rewrite mergeStep_snoc in *.
    destruct (overlaps cur last).
    + apply IH. exact Hstep.
    + apply IH. exact Hstep.
Qed.

Lemma merge_fold_length (rest result : list EntityWithScore) :
  result <> [] ->
  (List.length (fold_left (mergeStep mergeEntities) rest result)
   <= List.length result + List.length rest)%nat.
Proof.
  revert result. induction rest as [|cur rest IH]; intros result Hne; simpl.
  - lia.
  - destruct (exists_last Hne) as (init & last & ->).
    rewrite mergeStep_snoc. destruct (overlaps cur last).
    + etransitivity; [apply IH; now destruct init|].
      rewrite !length_app. simpl. lia.
    + etransitivity; [apply IH; now destruct init|].
      rewrite !length_app. simpl. lia.
Qed.

Lemma mergeOverlapping_mergedFrom (group : list EntityWithScore) :
  mergedFrom group (mergeOverlapping group mergeEntities).
Proof.
  unfold mergeOverlapping.
  destruct (List.length group <=? 1)%nat; [apply mergedFrom_refl|].
  pose proof (sort_perm (fun a b : EntityWithScore => start a - start b) group) as Hp.
  destruct (sort (fun a b : EntityWithScore => start a - start b) group)
    as [|first rest].
  - apply Permutation_nil in Hp. subst. apply mergedFrom_refl.
  - apply (mergedFrom_perm (rev rest ++ [first])).
    + intros e. rewrite in_app_iff, <- in_rev. simpl. split.
      * intros [He | [<- | []]]; (eapply Permutation_in; [exact Hp|]); simpl; auto.
      * intros He. apply (Permutation_in _ (Permutation_sym Hp)) in He.
        destruct He as [<- | He]; auto.
    + apply (merge_fold_mergedFrom rest [first] [] first). apply mergedFrom_refl.
Qed.

Lemma mergeOverlapping_length (group : list EntityWithScore) :
  (List.length (mergeOverlapping group mergeEntities) <= List.length group)%nat.
Proof.
  unfold mergeOverlapping.
  destruct (List.length group <=? 1)%nat; [lia|].
  pose proof (sort_length (fun a b : EntityWithScore => start a - start b) group) as Hl.
  destruct (sort (fun a b : EntityWithScore => start a - start b) group)
    as [|first rest]; simpl in *; [lia|].
  etransitivity; [apply merge_fold_length; discriminate|]. simpl. lia.
Qed.

(** The merge loop on valid spans in start order, whatever their types:
    the result is a chain of valid spans. *)
Lemma merge_fold_sorted (rest init : list EntityWithScore) (last : EntityWithScore) :
  Forall valid (init ++ [last]) ->
  StronglySorted before (init ++ [last]) ->
  Forall valid rest ->
  Forall (fun c => e_start last <= e_start c) rest ->
  ascending (fun a b : EntityWithScore => start a - start b) rest ->
  StronglySorted before (fold_left (mergeStep mergeEntities) rest (init ++ [last])) /\
  Forall valid (fold_left (mergeStep mergeEntities) rest (init ++ [last])).
Proof.
  revert init last.
  induction rest as [|cur rest IH]; intros init last Hv Hs Hvr Hge Hasc; simpl.
  - auto.
  - rewrite mergeStep_snoc.
    apply Forall_inv in Hvr as Hvc. apply Forall_inv_tail in Hvr.
    apply Forall_inv in Hge as Hgc. apply Forall_inv_tail in Hge.
    apply StronglySorted_inv in Hasc. destruct Hasc as [Hasc Hcur].
    rewrite Forall_app in Hv. destruct Hv as [Hvi Hvl]. apply Forall_inv in Hvl.
    apply StronglySorted_app_iff in Hs. destruct Hs as (Hsi & _ & Hil).
    assert (Hrest : Forall (fun c => e_start cur <= e_start c) rest).
    { rewrite Forall_forall in *. intros c Hc. specialize (Hcur c Hc).
      simpl in Hcur. lia. }
    unfold valid in Hvc, Hvl. simpl in Hvc, Hvl.
    destruct (overlaps cur last) eqn:Ho.
    + apply IH; auto.
      * rewrite Forall_app. split; [exact Hvi|]. repeat constructor.
        unfold valid. simpl. lia.
      * apply StronglySorted_snoc; [exact Hsi|].
        rewrite Forall_forall. intros a Ha.
        specialize (Hil a last Ha (or_introl eq_refl)).
        unfold before in *. simpl. lia.
      * rewrite Forall_forall in *. intros c Hc. specialize (Hge c Hc). simpl. lia.
    + assert (Hb : end_ last <= start cur)
        by (apply (overlaps_false_after last cur); [exact Hvc | exact Hgc | exact Ho]).
      simpl in Hb.
      apply IH; auto.
      * rewrite !Forall_app. repeat split; auto; repeat constructor; assumption.
      * apply StronglySorted_snoc.
        -- apply StronglySorted_app_iff. repeat split; auto. repeat constructor.
        -- rewrite Forall_app. split.
           ++ rewrite Forall_forall. intros a Ha.
              specialize (Hil a last Ha (or_introl eq_refl)).
              unfold before in *. lia.
           ++ repeat constructor. exact Hb.
Qed.

Lemma mergeOverlapping_sorted (group : list EntityWithScore) :
  Forall valid group ->
  StronglySorted before (mergeOverlapping group mergeEntities) /\
  Forall valid (mergeOverlapping group mergeEntities).
Proof.
  intros Hv. unfold mergeOverlapping.
  destruct (List.length group <=? 1)%nat eqn:El.
  - apply Nat.leb_le in El. split; [now apply StronglySorted_short | exact Hv].
  - set (cmp := fun a b : EntityWithScore => start a - start b).
    pose proof (sort_perm cmp group) as Hp.
    pose proof (sort_sorted cmp compareStart_total compareStart_trans group) as Hs.
    assert (Hv' : Forall valid (sort cmp group))
      by (eapply Permutation_Forall; [apply Permutation_sym; exact Hp | exact Hv]).
    destruct (sort cmp group) as [|first rest].
    + split; constructor.
    + apply StronglySorted_inv in Hs. destruct Hs as [Hs Hf].
      apply (merge_fold_sorted rest [] first); simpl.
      * repeat constructor. now apply Forall_inv in Hv'.
      * repeat constructor.
      * now apply Forall_inv_tail in Hv'.
      * rewrite Forall_forall in *. intros c Hc. specialize (Hf c Hc).
        unfold cmp in Hf. simpl in Hf. lia.
      * exact Hs.
Qed.

(** In a chain of valid spans, two spans that overlap are one span. *)
Lemma chain_overlap_eq (l : list EntityWithScore) (a b : EntityWithScore) :
  StronglySorted before l -> In a l -> In b l -> overlaps a b = true -> a = b.
Proof.
  intros Hs Ha Hb Ho.
  destruct (StronglySorted_In _ l Hs a b Ha Hb) as [E | [Hab | Hba]]; [exact E | |].
  - unfold before in Hab.
    destruct (before_not_overlaps a b) as [Hn _]; [exact Hab | congruence].
  - unfold before in Hba.
    destruct (before_not_overlaps b a) as [_ Hn]; [exact Hba | congruence].
Qed.

Lemma contained_both_overlap (e a b : EntityWithScore) :
  valid e -> isContainedIn e a = true -> isContainedIn e b = true ->
  overlaps a b = true.
Proof.
  unfold valid. rewrite !isContainedIn_spec, overlaps_spec. simpl. lia.
Qed.

(** *** mergeOverlapping *)

(** X1: mergeOverlapping, with the merge callback of resolveConflicts,
    neither loses nor invents offsets: an offset lies in a span of the
    result exactly when it lies in a span of the input; every input span
    lies inside a result span; and the result is no longer than the
    input. *)
Theorem mergeOverlapping_keeps_offsets (group : list EntityWithScore) :
  (forall z, covered group z <-> covered (mergeOverlapping group mergeEntities) z) /\
  (forall e, In e group ->
     exists o, In o (mergeOverlapping group mergeEntities) /\ isContainedIn e o = true) /\
  (List.length (mergeOverlapping group mergeEntities) <= List.length group)%nat.
Proof.
  destruct (mergeOverlapping_mergedFrom group) as (H1 & _ & H3).
  split; [|split].
  - intros z. split.
    + intros (e & He & Hz). destruct (H1 e He) as (o & Ho & Hc & _).
      exists o. split; [exact Ho | eapply covers_contained; eauto].
    + intros (o & Ho & Hz). exact (H3 o z Ho Hz).
  - intros e He. destruct (H1 e He) as (o & Ho & Hc & _). exists o. auto.
  - apply mergeOverlapping_length.
Qed.

(** X2: on spans with start < end, the result of mergeOverlapping is a
    chain: every span ends at or before the start of each later one, so
    the result is in start order and free of overlap, and its spans have
    start < end. *)
Theorem mergeOverlapping_result_is_chain (group : list EntityWithScore) :
  Forall valid group ->
  (forall i j a b, (i < j)%nat ->
     nth_error (mergeOverlapping group mergeEntities) i = Some a ->
     nth_error (mergeOverlapping group mergeEntities) j = Some b ->
     e_end a <= e_start b /\ overlaps a b = false) /\
  Forall valid (mergeOverlapping group mergeEntities).
Proof.
  intros Hv. destruct (mergeOverlapping_sorted group Hv) as [Hs Hvm].
  split; [|exact Hvm].
  intros i j a b Hij Hi Hj.
  pose proof (StronglySorted_nth _ _ Hs i j a b Hij Hi Hj) as Hb.
  split; [exact Hb | exact (proj1 (before_not_overlaps a b Hb))].
Qed.

Lemma mergeOverlapping_result_is_chain_witness :
  mergeOverlapping
    [mkEntity 6 9 50 "PERSON"; mkEntity 0 4 70 "PERSON"; mkEntity 3 6 90 "PERSON"]
    mergeEntities
  = [mkEntity 0 6 90 "PERSON"; mkEntity 6 9 50 "PERSON"] /\
  (e_end (mkEntity 0 6 90 "PERSON") <= e_start (mkEntity 6 9 50 "PERSON") /\
   overlaps (mkEntity 0 6 90 "PERSON") (mkEntity 6 9 50 "PERSON") = false).
Proof.
  split; [reflexivity|].
  apply (proj1 (mergeOverlapping_result_is_chain
                  [mkEntity 6 9 50 "PERSON"; mkEntity 0 4 70 "PERSON";
                   mkEntity 3 6 90 "PERSON"]
                  ltac:(repeat constructor)) 0%nat 1%nat).
  - lia.
  - reflexivity.
  - reflexivity.
Defined.

(** X3: on spans with start < end, a span of the result of
    mergeOverlapping carries the highest score among the input spans that
    lie inside it. *)
Theorem mergeOverlapping_keeps_highest_score (group : list EntityWithScore) :
  Forall valid group ->
  forall o, In o (mergeOverlapping group mergeEntities) ->
    (forall e, In e group -> isContainedIn e o = true -> score e <= score o) /\
    (exists e, In e group /\ isContainedIn e o = true /\ score e = score o).
Proof.
  intros Hv o Ho.
  destruct (mergeOverlapping_mergedFrom group) as (H1 & H2 & _).
  destruct (mergeOverlapping_sorted group Hv) as [Hs _].
  split.
  - intros e He Hc. destruct (H1 e He) as (o' & Ho' & Hc' & Hle).
    rewrite Forall_forall in Hv.
    assert (E : o = o').
    { apply (chain_overlap_eq _ o o' Hs Ho Ho').
      apply (contained_both_overlap e); auto. }
    now subst.
  - destruct (H2 o Ho) as (_ & _ & (e & He & Hc & E) & _). exists e. auto.
Qed.

Lemma mergeOverlapping_keeps_highest_score_witness :
  In (mkEntity 0 6 90 "PERSON")
     (mergeOverlapping
        [mkEntity 6 9 50 "PERSON"; mkEntity 0 4 70 "PERSON"; mkEntity 3 6 90 "PERSON"]
        mergeEntities) /\
  score (mkEntity 0 4 70 "PERSON") <= score (mkEntity 0 6 90 "PERSON").
Proof.
  assert (Hin : In (mkEntity 0 6 90 "PERSON")
     (mergeOverlapping
        [mkEntity 6 9 50 "PERSON"; mkEntity 0 4 70 "PERSON"; mkEntity 3 6 90 "PERSON"]
        mergeEntities)) by (left; reflexivity).
  split; [exact Hin|].
  apply (proj1 (mergeOverlapping_keeps_highest_score
                  [mkEntity 6 9 50 "PERSON"; mkEntity 0 4 70 "PERSON";
                   mkEntity 3 6 90 "PERSON"]
                  ltac:(repeat constructor) _ Hin)).
  - right. left. reflexivity.
  - reflexivity.
Defined.

(** *** removeConflicting *)

Lemma keep_fold_keeps_result (rest result : list EntityWithScore) (k : EntityWithScore) :
  In k result -> In k (fold_left keepStep rest result).
Proof.
  revert result. induction rest as [|e rest IH]; intros result Hk; simpl; [exact Hk|].
  apply IH. destruct (keepStep_cases result e) as [[_ ->] | [_ ->]]; [exact Hk|].
  apply in_or_app. now left.
Qed.

Lemma keep_fold_container (rest result : list EntityWithScore) (e : EntityWithScore) :
  In e result \/ In e rest ->
  exists k, In k (fold_left keepStep rest result) /\ isContainedIn e k = true.
Proof.
  revert result. induction rest as [|e0 rest IH]; intros result [He | He]; simpl.
  - exists e. split; [exact He | apply isContainedIn_refl].
  - destruct He.
  - exists e. split; [|apply isContainedIn_refl].
    apply (keep_fold_keeps_result (e0 :: rest)). exact He.
  - destruct He as [<- | He].
    + destruct (keepStep_cases result e0) as [[Hex ->] | [_ ->]].
      * apply existsb_exists in Hex. destruct Hex as (kept & Hk & Hc).
        exists kept. split; [now apply keep_fold_keeps_result|].
        now apply conflictsWith_contained.
      * exists e0. split; [|apply isContainedIn_refl].
        apply keep_fold_keeps_result. apply in_or_app. right. now left.
    + apply IH. now right.
Qed.

Lemma keep_fold_length (rest result : list EntityWithScore) :
  (List.length (fold_left keepStep rest result)
   <= List.length result + List.length rest)%nat.
Proof.
  revert result. induction rest as [|e rest IH]; intros result; simpl; [lia|].
  etransitivity; [apply IH|].
  destruct (keepStep_cases result e) as [[_ ->] | [_ ->]];
    rewrite ?length_app; simpl; lia.
Qed.

Lemma removeConflicting_keeps_a_container_aux (entities : list EntityWithScore) :
  (forall k, In k (removeConflicting entities) -> In k entities) /\
  (forall e, In e entities ->
     exists k, In k (removeConflicting entities) /\ isContainedIn e k = true) /\
  (List.length (removeConflicting entities) <= List.length entities)%nat.
Proof.
  split; [|split].
  - apply Forall_forall. apply removeConflicting_Forall.
    apply Forall_forall. auto.
  - intros e He. unfold removeConflicting.
    destruct (List.length entities <=? 1)%nat.
    + exists e. split; [exact He | apply isContainedIn_refl].
    + apply keep_fold_container. right.
      eapply Permutation_in; [apply Permutation_sym, sort_perm | exact He].
  - unfold removeConflicting.
    destruct (List.length entities <=? 1)%nat; [lia|].
    etransitivity; [apply keep_fold_length|].
    rewrite sort_length. simpl. lia.
Qed.

(** X4: removeConflicting only removes: every kept entity is an input
    entity, in particular it keeps its score and type, and the result is
    no longer than the input; and what it removes is accounted for: every
    input entity lies inside a kept entity, so the kept entities cover
    the offsets the input covers. *)
Theorem removeConflicting_keeps_a_container (entities : list EntityWithScore) :
  (forall k, In k (removeConflicting entities) -> In k entities) /\
  (forall e, In e entities ->
     exists k, In k (removeConflicting entities) /\ isContainedIn e k = true) /\
  (forall z, covered entities z <-> covered (removeConflicting entities) z) /\
  (List.length (removeConflicting entities) <= List.length entities)%nat.
Proof.
  destruct (removeConflicting_keeps_a_container_aux entities) as (Hsub & Hcov & Hlen).
  repeat split; auto.
  - intros (e & He & Hz). destruct (Hcov e He) as (k & Hk & Hc).
    exists k. split; [exact Hk | eapply covers_contained; eauto].
  - intros (k & Hk & Hz). exists k. auto.
Qed.

Lemma ascending_noConflict_startsBefore (l : list EntityWithScore) :
  ascending compareConflict l -> StronglySorted noConflict l ->
  StronglySorted (fun a b => startsBefore a b /\ isContainedIn b a = false) l.
Proof.
  intros Hasc Hno.
  eapply StronglySorted_impl_In; [|apply (StronglySorted_conj _ _ l Hasc Hno)].
  intros a b _ _ [Hle Hnc]. unfold noConflict in Hnc.
  destruct (conflictsWith_false b a Hnc) as [Hc Hne]. split; [|exact Hc].
  unfold startsBefore. simpl. unfold compareConflict in Hle.
  destruct (Z.eqb_spec (e_start a) (e_start b)) as [Es|Es]; simpl in Hle; [|lia].
  destruct (Z.eqb_spec (e_end a) (e_end b)) as [Ee|Ee]; simpl in Hle; [|lia].
  exfalso. apply Hne. auto.
Qed.

Lemma startsBefore_order (l : list EntityWithScore) :
  StronglySorted (fun a b => startsBefore a b /\ isContainedIn b a = false) l ->
  forall i j a b, (i < j)%nat -> nth_error l i = Some a -> nth_error l j = Some b ->
    startsBefore a b /\
    isContainedIn b a = false /\
    (isContainedIn a b = true -> e_start a = e_start b /\ e_end a < e_end b).
Proof.
  intros Hs i j a b Hij Hi Hj.
  destruct (StronglySorted_nth _ _ Hs i j a b Hij Hi Hj) as [Hb Hc].
  repeat split; auto; unfold startsBefore in Hb; simpl in Hb;
    apply isContainedIn_spec in H; simpl in H; lia.
Qed.

(** X5: the result of removeConflicting is in the strict order of
    (start, end), so no two kept entities have the same start and end; a
    kept entity never lies inside an entity kept before it; and an entity
    kept before one that contains it starts with it and is shorter. *)
Theorem removeConflicting_result_is_ordered (entities : list EntityWithScore) :
  forall i j a b, (i < j)%nat ->
    nth_error (removeConflicting entities) i = Some a ->
    nth_error (removeConflicting entities) j = Some b ->
    startsBefore a b /\
    isContainedIn b a = false /\
    (isContainedIn a b = true -> e_start a = e_start b /\ e_end a < e_end b).
Proof.
  apply startsBefore_order.
  destruct (removeConflicting_ascending entities) as [Hasc Hno].
  now apply ascending_noConflict_startsBefore.
Qed.

Lemma removeConflicting_result_is_ordered_witness :
  removeConflicting
    [mkEntity 2 4 99 "EMAIL_ADDRESS"; mkEntity 0 8 90 "LOCATION"; mkEntity 0 5 90 "PERSON"]
  = [mkEntity 0 5 90 "PERSON"; mkEntity 0 8 90 "LOCATION"] /\
  startsBefore (mkEntity 0 5 90 "PERSON") (mkEntity 0 8 90 "LOCATION") /\
  isContainedIn (mkEntity 0 8 90 "LOCATION") (mkEntity 0 5 90 "PERSON") = false.
Proof.
  split; [reflexivity|].
  destruct (removeConflicting_result_is_ordered
              [mkEntity 2 4 99 "EMAIL_ADDRESS"; mkEntity 0 8 90 "LOCATION";
               mkEntity 0 5 90 "PERSON"]
              0%nat 1%nat (mkEntity 0 5 90 "PERSON") (mkEntity 0 8 90 "LOCATION")
              ltac:(lia) eq_refl eq_refl) as (Hb & Hc & _).
  split; [exact Hb | exact Hc].
Defined.

(** *** resolveConflicts *)

Lemma groupsOf_group_of {T} (keyFn : T -> string) (groups : list (string * list T))
  (items : list T) (x : T) :
  groupsOf keyFn groups items -> In x items ->
  exists g, In (keyFn x, g) groups /\ In x g.
Proof.
  intros (_ & Hg & Hk & _) Hx.
  specialize (Hk x Hx). apply in_map_iff in Hk. destruct Hk as ([k g] & Ek & Hin).
  simpl in Ek. subst k. exists g. split; [exact Hin|].
  rewrite (Hg _ _ Hin). apply filter_In. split; [exact Hx | apply String.eqb_refl].
Qed.

Lemma groupsOf_members {T} (keyFn : T -> string) (groups : list (string * list T))
  (items : list T) (k : string) (g : list T) (x : T) :
  groupsOf keyFn groups items -> In (k, g) groups ->
  (In x g <-> In x items /\ keyFn x = k).
Proof.
  intros (_ & Hg & _ & _) Hin. rewrite (Hg k g Hin), filter_In, String.eqb_eq. tauto.
Qed.

(** The merged groups of resolveConflicts against its input. *)
Lemma afterMerge_mergedFrom (entities : list EntityWithScore) :
  let afterMerge :=
    flat_map (fun group => mergeOverlapping (snd group) mergeEntities)
             (groupBy entities entity_type) in
  (forall e, In e entities ->
     exists o, In o afterMerge /\ isContainedIn e o = true /\ score e <= score o /\
               entity_type o = entity_type e) /\
  (forall o, In o afterMerge ->
     exists g, In (entity_type o, g) (groupBy entities entity_type) /\
               In o (mergeOverlapping g mergeEntities)).
Proof.
  pose proof (groupBy_groupsOf entity_type entities) as Hgroups.
  split.
  - intros e He.
    destruct (groupsOf_group_of _ _ _ e Hgroups He) as (g & Hin & Heg).
    destruct (mergeOverlapping_mergedFrom g) as (H1 & H2 & _).
    destruct (H1 e Heg) as (o & Ho & Hc & Hs).
    exists o. repeat split; auto.
    + apply in_flat_map. exists (entity_type e, g). auto.
    + destruct (H2 o Ho) as (_ & _ & _ & (e' & He' & Et)).
      rewrite Et. apply (groupsOf_members _ _ _ _ _ e' Hgroups Hin). exact He'.
  - intros o Ho. apply in_flat_map in Ho. destruct Ho as ([k g] & Hin & Ho).
    simpl in Ho. exists g. split; [|exact Ho].
    destruct (mergeOverlapping_mergedFrom g) as (_ & H2 & _).
    destruct (H2 o Ho) as (_ & _ & _ & (e' & He' & Et)).
    rewrite Et.
    replace (entity_type e') with k; [exact Hin|].
    symmetry. apply (groupsOf_members _ _ _ _ _ e' Hgroups Hin). exact He'.
Qed.

Lemma afterMerge_length (groups : list (string * list EntityWithScore)) :
  (List.length (flat_map (fun group => mergeOverlapping (snd group) mergeEntities) groups)
   <= List.length (List.concat (map snd groups)))%nat.
Proof.
  induction groups as [|[k g] groups IH]; simpl; [lia|].
  rewrite !length_app. pose proof (mergeOverlapping_length g). lia.
Qed.

Lemma resolveConflicts_unfold (entities : list EntityWithScore) :
  resolveConflicts entities =
  if (List.length entities <=? 1)%nat then entities
  else removeConflicting
         (flat_map (fun group => mergeOverlapping (snd group) mergeEntities)
                   (groupBy entities entity_type)).
Proof.
  unfold resolveConflicts. destruct (List.length entities <=? 1)%nat; [reflexivity|].
  cbv zeta. now rewrite afterMerge_flat_map.
Qed.

(** X6: resolveConflicts neither loses nor invents offsets: an offset lies
    in a span of the output exactly when it lies in a span of the input;
    every input span lies inside an output span; and the output is no
    longer than the input. *)
Theorem resolveConflicts_keeps_offsets (entities : list EntityWithScore) :
  (forall z, covered entities z <-> covered (resolveConflicts entities) z) /\
  (forall e, In e entities ->
     exists k, In k (resolveConflicts entities) /\ isContainedIn e k = true) /\
  (List.length (resolveConflicts entities) <= List.length entities)%nat.
Proof.
  rewrite resolveConflicts_unfold.
  destruct (List.length entities <=? 1)%nat.
  - split; [tauto|]. split; [|lia].
    intros e He. exists e. split; [exact He | apply isContainedIn_refl].
  - destruct (afterMerge_mergedFrom entities) as [Hin Hout].
    set (afterMerge := flat_map (fun group => mergeOverlapping (snd group) mergeEntities)
                         (groupBy entities entity_type)) in *.
    destruct (removeConflicting_keeps_a_container_aux afterMerge) as (Hsub & Hcov & Hlen).
    assert (Hcontainer : forall e, In e entities ->
              exists k, In k (removeConflicting afterMerge) /\ isContainedIn e k = true).
    { intros e He. destruct (Hin e He) as (o & Ho & Hc & _).
      destruct (Hcov o Ho) as (k & Hk & Hck).
      exists k. split; [exact Hk | eapply isContainedIn_trans; eauto]. }
    split; [|split].
    + intros z. split.
      * intros (e & He & Hz). destruct (Hcontainer e He) as (k & Hk & Hc).
        exists k. split; [exact Hk | eapply covers_contained; eauto].
      * intros (k & Hk & Hz). apply Hsub in Hk.
        destruct (Hout k Hk) as (g & Hg & Hkg).
        destruct (mergeOverlapping_mergedFrom g) as (_ & _ & H3).
        destruct (H3 k z Hkg Hz) as (e & He & Hce).
        exists e. split; [|exact Hce].
        apply (groupsOf_members _ _ _ _ _ e (groupBy_groupsOf entity_type entities) Hg).
        exact He.
    + exact Hcontainer.
    + etransitivity; [exact Hlen|].
      etransitivity; [apply afterMerge_length|].
      destruct (groupBy_groupsOf entity_type entities) as (_ & _ & _ & Hp).
      rewrite (Permutation_length Hp). lia.
Qed.

Lemma resolveConflicts_from_group (entities : list EntityWithScore) (o : EntityWithScore) :
  In o (resolveConflicts entities) ->
  In o entities \/
  exists g, In (entity_type o, g) (groupBy entities entity_type) /\
            In o (mergeOverlapping g mergeEntities).
Proof.
  rewrite resolveConflicts_unfold.
  destruct (List.length entities <=? 1)%nat; [now left|].
  intros Ho. right.
  apply (proj1 (removeConflicting_keeps_a_container_aux _)) in Ho.
  exact (proj2 (afterMerge_mergedFrom entities) o Ho).
Qed.

(** X7: resolveConflicts builds every output span from input spans of the
    same entity type: its start is the start of one of them, its end the
    end of one of them, and its score the score of one of them that lies
    inside it.  When the input spans have start < end, so have the output
    spans. *)
Theorem resolveConflicts_spans_from_input (entities : list EntityWithScore) :
  (forall o, In o (resolveConflicts entities) ->
     (exists e, In e entities /\ entity_type e = entity_type o /\ e_start e = e_start o) /\
     (exists e, In e entities /\ entity_type e = entity_type o /\ e_end e = e_end o) /\
     (exists e, In e entities /\ entity_type e = entity_type o /\
                isContainedIn e o = true /\ score e = score o)) /\
  (Forall valid entities -> Forall valid (resolveConflicts entities)).
Proof.
  split; [|apply resolveConflicts_sameTypeDisjoint].
  intros o Ho. destruct (resolveConflicts_from_group entities o Ho) as [Hin | (g & Hg & Hog)].
  - split; [|split]; exists o; repeat split; auto using isContainedIn_refl.
  - pose proof (groupBy_groupsOf entity_type entities) as Hgroups.
    destruct (mergeOverlapping_mergedFrom g) as (_ & H2 & _).
    destruct (H2 o Hog) as ((e1 & He1 & E1) & (e2 & He2 & E2) & (e3 & He3 & Hc3 & E3) & _).
    apply (groupsOf_members _ _ _ _ _ _ Hgroups Hg) in He1, He2, He3.
    split; [|split].
    + exists e1. intuition.
    + exists e2. intuition.
    + exists e3. intuition.
Qed.

Lemma resolveConflicts_spans_from_input_witness :
  Forall valid
    [mkEntity 0 5 90 "PERSON"; mkEntity 3 8 95 "PERSON"; mkEntity 4 6 99 "EMAIL_ADDRESS"] /\
  Forall valid
    (resolveConflicts
       [mkEntity 0 5 90 "PERSON"; mkEntity 3 8 95 "PERSON";
        mkEntity 4 6 99 "EMAIL_ADDRESS"]).
Proof.
  assert (Hv : Forall valid
    [mkEntity 0 5 90 "PERSON"; mkEntity 3 8 95 "PERSON"; mkEntity 4 6 99 "EMAIL_ADDRESS"])
    by (repeat constructor).
  split; [exact Hv|].
  exact (proj2 (resolveConflicts_spans_from_input _) Hv).
Defined.

(** X8: the output of resolveConflicts is in the strict order of
    (start, end): it is sorted by start, no two output spans have the same
    start and end, no output span lies inside an earlier one, and an
    output span that lies inside a later one starts with it and is
    shorter. *)
Theorem resolveConflicts_result_is_ordered (entities : list EntityWithScore) :
  forall i j a b, (i < j)%nat ->
    nth_error (resolveConflicts entities) i = Some a ->
    nth_error (resolveConflicts entities) j = Some b ->
    startsBefore a b /\
    isContainedIn b a = false /\
    (isContainedIn a b = true -> e_start a = e_start b /\ e_end a < e_end b).
Proof.
  apply startsBefore_order. rewrite resolveConflicts_unfold.
  destruct (List.length entities <=? 1)%nat eqn:El.
  - apply Nat.leb_le in El. now apply StronglySorted_short.
  - destruct (removeConflicting_ascending
                (flat_map (fun group => mergeOverlapping (snd group) mergeEntities)
                          (groupBy entities entity_type))) as [Hasc Hno].
    now apply ascending_noConflict_startsBefore.
Qed.

Lemma resolveConflicts_result_is_ordered_witness :
  resolveConflicts
    [mkEntity 10 12 70 "PERSON"; mkEntity 3 8 95 "PERSON";
     mkEntity 4 9 80 "LOCATION"; mkEntity 0 5 90 "PERSON"]
  = [mkEntity 0 8 95 "PERSON"; mkEntity 4 9 80 "LOCATION"; mkEntity 10 12 70 "PERSON"] /\
  startsBefore (mkEntity 0 8 95 "PERSON") (mkEntity 4 9 80 "LOCATION").
Proof.
  split; [reflexivity|].
  exact (proj1 (resolveConflicts_result_is_ordered
                  [mkEntity 10 12 70 "PERSON"; mkEntity 3 8 95 "PERSON";
                   mkEntity 4 9 80 "LOCATION"; mkEntity 0 5 90 "PERSON"]
                  0%nat 1%nat (mkEntity 0 8 95 "PERSON") (mkEntity 4 9 80 "LOCATION")
                  ltac:(lia) eq_refl eq_refl)).
Defined.

(** X9: on spans with start < end, an output span of resolveConflicts
    carries the highest score among the input spans of its entity type
    that lie inside it. *)
Theorem resolveConflicts_keeps_highest_score (entities : list EntityWithScore) :
  Forall valid entities ->
  forall o e, In o (resolveConflicts entities) -> In e entities ->
    entity_type e = entity_type o -> isContainedIn e o = true ->
    score e <= score o.
Proof.
  intros Hv o e Ho He Et Hc.
  destruct (resolveConflicts_from_group entities o Ho) as [Hin | (g & Hg & Hog)].
  - (* at most one input span: the output is the input *)
    revert Ho. rewrite resolveConflicts_unfold.
    destruct (List.length entities <=? 1)%nat eqn:El.
    + apply Nat.leb_le in El. intros Ho.
      destruct entities as [|x [|y l]]; simpl in *; try lia; try contradiction.
      destruct Ho as [<- | []], He as [<- | []]. lia.
    + intros Ho.
      apply (proj1 (removeConflicting_keeps_a_container_aux _)) in Ho.
      destruct (proj2 (afterMerge_mergedFrom entities) o Ho) as (g & Hg & Hog).
      pose proof (groupBy_groupsOf entity_type entities) as Hgroups.
      assert (Heg : In e g) by (apply (groupsOf_members _ _ _ _ _ e Hgroups Hg); auto).
      assert (Hvg : Forall valid g).
      { rewrite Forall_forall in *. intros x Hx. apply Hv.
        now apply (groupsOf_members _ _ _ _ _ x Hgroups Hg). }
      destruct (mergeOverlapping_mergedFrom g) as (H1 & _ & _).
      destruct (mergeOverlapping_sorted g Hvg) as [Hs _].
      destruct (H1 e Heg) as (o' & Ho' & Hc' & Hle).
      rewrite Forall_forall in Hvg.
      assert (E : o = o').
      { apply (chain_overlap_eq _ o o' Hs Hog Ho').
        apply (contained_both_overlap e); auto. }
      now subst.
  - pose proof (groupBy_groupsOf entity_type entities) as Hgroups.
    assert (Heg : In e g) by (apply (groupsOf_members _ _ _ _ _ e Hgroups Hg); auto).
    assert (Hvg : Forall valid g).
    { rewrite Forall_forall in *. intros x Hx. apply Hv.
      now apply (groupsOf_members _ _ _ _ _ x Hgroups Hg). }
    destruct (mergeOverlapping_mergedFrom g) as (H1 & _ & _).
    destruct (mergeOverlapping_sorted g Hvg) as [Hs _].
    destruct (H1 e Heg) as (o' & Ho' & Hc' & Hle).
    rewrite Forall_forall in Hvg.
    assert (E : o = o').
    { apply (chain_overlap_eq _ o o' Hs Hog Ho').
      apply (contained_both_overlap e); auto. }
    now subst.
Qed.

Lemma resolveConflicts_keeps_highest_score_witness :
  In (mkEntity 0 8 95 "PERSON")
     (resolveConflicts
        [mkEntity 10 12 70 "PERSON"; mkEntity 3 8 95 "PERSON";
         mkEntity 4 9 80 "LOCATION"; mkEntity 0 5 90 "PERSON"]) /\
  score (mkEntity 0 5 90 "PERSON") <= score (mkEntity 0 8 95 "PERSON").
Proof.
  assert (Hin : In (mkEntity 0 8 95 "PERSON")
     (resolveConflicts
        [mkEntity 10 12 70 "PERSON"; mkEntity 3 8 95 "PERSON";
         mkEntity 4 9 80 "LOCATION"; mkEntity 0 5 90 "PERSON"])) by (left; reflexivity).
  split; [exact Hin|].
  apply (resolveConflicts_keeps_highest_score
           [mkEntity 10 12 70 "PERSON"; mkEntity 3 8 95 "PERSON";
            mkEntity 4 9 80 "LOCATION"; mkEntity 0 5 90 "PERSON"]
           ltac:(repeat constructor) _ (mkEntity 0 5 90 "PERSON") Hin).
  - right. right. right. left. reflexivity.
  - reflexivity.
  - reflexivity.
Defined.

(** *** resolveConflictsSimple *)

Section SimpleMore.
Context {T : Type} `{Interval T}.

Lemma keepAfter_In (pending : list T) (last x : T) :
  In x (keepAfter last pending) -> In x pending.
Proof.
  revert last. induction pending as [|c pending IH]; intros last; simpl; [auto|].
  destruct (end_ last <=? start c).
  - intros [<- | Hx]; [now left | right; eauto].
  - intros Hx. right. eauto.
Qed.

Lemma greedyKeep_In (ordered : list T) (x : T) :
  In x (greedyKeep ordered) -> In x ordered.
Proof.
  destruct ordered as [|first pending]; simpl; [auto|].
  intros [<- | Hx]; [now left | right; eapply keepAfter_In; eauto].
Qed.

(** The greedy pass keeps a subsequence. *)
Lemma keepAfter_sorted (R : T -> T -> Prop) (pending : list T) (last : T) :
  StronglySorted R (last :: pending) ->
  StronglySorted R (last :: keepAfter last pending).
Proof.
  revert last. induction pending as [|c pending IH]; intros last Hs; simpl; [exact Hs|].
  apply StronglySorted_inv in Hs. destruct Hs as [Hs Hl].
  apply Forall_inv in Hl as Hlc. apply Forall_inv_tail in Hl.
  destruct (end_ last <=? start c).
  - constructor; [now apply IH|].
    constructor; [exact Hlc|].
    rewrite Forall_forall in *. intros x Hx. apply Hl. eapply keepAfter_In; eauto.
  - apply IH. apply StronglySorted_inv in Hs. destruct Hs as [Hs _].
    now constructor.
Qed.

Lemma greedyKeep_sorted (R : T -> T -> Prop) (ordered : list T) :
  StronglySorted R ordered -> StronglySorted R (greedyKeep ordered).
Proof.
  destruct ordered as [|first pending]; simpl; [auto|]. apply keepAfter_sorted.
Qed.

(** Kept spans in start order form a chain. *)
Lemma keepAfter_chain (pending : list T) (last : T) :
  StronglySorted (fun a b => start a <= start b) (last :: pending) ->
  StronglySorted (fun a b => end_ a <= start b) (last :: keepAfter last pending).
Proof.
  revert last. induction pending as [|c pending IH]; intros last Hs; simpl.
  - repeat constructor.
  - apply StronglySorted_inv in Hs. destruct Hs as [Hs Hl].
    apply Forall_inv_tail in Hl.
    destruct (end_ last <=? start c) eqn:E.
    + apply Z.leb_le in E. specialize (IH c Hs).
      constructor; [exact IH|].
      constructor; [exact E|].
      apply StronglySorted_inv in Hs. destruct Hs as [_ Hc].
      rewrite Forall_forall in *. intros x Hx.
      specialize (Hc x (keepAfter_In _ _ _ Hx)). simpl in Hc. lia.
    + apply IH. apply StronglySorted_inv in Hs. destruct Hs as [Hs _].
      now constructor.
Qed.

(** Running the greedy pass on its own result changes nothing. *)
Lemma keepAfter_idem (pending : list T) (last : T) :
  keepAfter last (keepAfter last pending) = keepAfter last pending.
Proof.
  revert last. induction pending as [|c pending IH]; intros last; simpl; [reflexivity|].
  destruct (end_ last <=? start c) eqn:E; simpl.
  - now rewrite E, IH.
  - apply IH.
Qed.

(** A span that is not kept overlaps a kept span. *)
Lemma keepAfter_dropped (pending : list T) (last x : T) :
  StronglySorted (fun a b => start a <= start b) (last :: pending) ->
  Forall valid pending ->
  In x pending ->
  In x (keepAfter last pending) \/
  exists k, In k (last :: keepAfter last pending) /\ overlaps x k = true.
Proof.
  revert last. induction pending as [|c pending IH]; intros last Hs Hv Hx; [destruct Hx|].
  apply StronglySorted_inv in Hs. destruct Hs as [Hs Hl].
  apply Forall_inv in Hl as Hlc. apply Forall_inv_tail in Hl.
  apply Forall_inv in Hv as Hvc. apply Forall_inv_tail in Hv.
  simpl. destruct (end_ last <=? start c) eqn:E.
  - destruct Hx as [<- | Hx]; [left; now left|].
    destruct (IH c Hs Hv Hx) as [Hk | (k & Hk & Ho)].
    + left. now right.
    + right. exists k. split; [now right | exact Ho].
  - apply Z.leb_gt in E. destruct Hx as [<- | Hx].
    + right. exists last. split; [now left|].
      apply overlaps_spec. unfold valid in Hvc. lia.
    + apply IH; auto. apply StronglySorted_inv in Hs. destruct Hs as [Hs _].
      now constructor.
Qed.

Lemma simpleOrder_start (a b : T) : simpleOrder a b -> start a <= start b.
Proof. unfold simpleOrder. lia. Qed.

Lemma resolveConflictsSimple_chain (entities : list T) :
  StronglySorted (fun a b => end_ a <= start b) (resolveConflictsSimple entities).
Proof.
  destruct (resolveConflictsSimple_greedy entities) as (ordered & Hp & Hs & ->).
  destruct ordered as [|first pending]; [constructor|].
  apply keepAfter_chain.
  eapply StronglySorted_impl_In; [|exact Hs].
  intros a b _ _. apply simpleOrder_start.
Qed.
End SimpleMore.

(** X10: the output of resolveConflictsSimple is a chain: every kept span
    ends at or before the start of each span kept after it, so no two
    kept spans overlap; and every kept span is an input span, as it
    was given. *)
Theorem resolveConflictsSimple_result_is_disjoint :
  forall (T : Type) (I : Interval T) (entities : list T),
    PairwiseDisjoint (resolveConflictsSimple entities) /\
    (forall i j a b, (i < j)%nat ->
       nth_error (resolveConflictsSimple entities) i = Some a ->
       nth_error (resolveConflictsSimple entities) j = Some b ->
       end_ a <= start b) /\
    (forall k, In k (resolveConflictsSimple entities) -> In k entities).
Proof.
  intros T I entities.
  pose proof (resolveConflictsSimple_chain entities) as Hchain.
  split; [|split].
  - intros i j a b Hij Hi Hj.
    destruct (Nat.lt_total i j) as [Hlt | [E | Hlt]]; [| contradiction |].
    + exact (proj1 (before_not_overlaps a b
                      (StronglySorted_nth _ _ Hchain i j a b Hlt Hi Hj))).
    + exact (proj2 (before_not_overlaps b a
                      (StronglySorted_nth _ _ Hchain j i b a Hlt Hj Hi))).
  - apply (StronglySorted_nth _ _ Hchain).
  - intros k Hk.
    destruct (resolveConflictsSimple_greedy entities) as (ordered & Hp & _ & E).
    rewrite E in Hk. apply greedyKeep_In in Hk.
    eapply Permutation_in; eauto.
Qed.

(** X11: resolveConflictsSimple is idempotent: resolving its output
    returns the output unchanged. *)
Theorem resolveConflictsSimple_idempotent :
  forall (T : Type) (I : Interval T) (entities : list T),
    resolveConflictsSimple (resolveConflictsSimple entities)
    = resolveConflictsSimple entities.
Proof.
  intros T I entities.
  destruct (resolveConflictsSimple_greedy entities) as (ordered & Hp & Hs & E).
  rewrite E.
  assert (Hasc : ascending compareSimple (greedyKeep ordered)).
  { apply greedyKeep_sorted.
    eapply StronglySorted_impl_In; [|exact Hs].
    intros a b _ _. apply simpleOrder_compare. }
  unfold resolveConflictsSimple at 1.
  destruct (List.length (greedyKeep ordered) <=? 1)%nat; [reflexivity|].
  rewrite (sort_sorted_id _ _ Hasc).
  destruct ordered as [|first pending]; [reflexivity|].
  pose proof (simple_fold (keepAfter first pending) [] first) as Hfold.
  rewrite keepAfter_idem in Hfold. exact Hfold.
Qed.

(** X12: on spans with start < end, resolveConflictsSimple drops a span
    only for an overlap: every input span is kept or overlaps a kept
    span. *)
Theorem resolveConflictsSimple_drops_only_overlapping :
  forall (T : Type) (I : Interval T) (entities : list T),
    Forall valid entities ->
    forall e, In e entities ->
      In e (resolveConflictsSimple entities) \/
      exists k, In k (resolveConflictsSimple entities) /\ overlaps e k = true.
Proof.
  intros T I entities Hv e He.
  destruct (resolveConflictsSimple_greedy entities) as (ordered & Hp & Hs & E).
  rewrite E.
  assert (Heo : In e ordered)
    by (eapply Permutation_in; [apply Permutation_sym; exact Hp | exact He]).
  assert (Hvo : Forall valid ordered)
    by (eapply Permutation_Forall; [apply Permutation_sym; exact Hp | exact Hv]).
  destruct ordered as [|first pending]; [destruct Heo|].
  simpl greedyKeep. destruct Heo as [<- | Heo]; [left; now left|].
  destruct (keepAfter_dropped pending first e) as [Hk | Hk]; auto.
  - eapply StronglySorted_impl_In; [|exact Hs].
    intros a b _ _. apply simpleOrder_start.
  - now apply Forall_inv_tail in Hvo.
  - left. now right.
Qed.

Lemma resolveConflictsSimple_drops_only_overlapping_witness :
  resolveConflictsSimple [mkSpan 5 15; mkSpan 20 30; mkSpan 0 10]
  = [mkSpan 0 10; mkSpan 20 30] /\
  (In (mkSpan 5 15) (resolveConflictsSimple [mkSpan 5 15; mkSpan 20 30; mkSpan 0 10]) \/
   exists k, In k (resolveConflictsSimple [mkSpan 5 15; mkSpan 20 30; mkSpan 0 10]) /\
             overlaps (mkSpan 5 15) k = true).
Proof.
  split; [reflexivity|].
  apply (resolveConflictsSimple_drops_only_overlapping Span Span_Interval
           [mkSpan 5 15; mkSpan 20 30; mkSpan 0 10]).
  - repeat constructor.
  - left. reflexivity.
Defined.

(** *** groupBy *)

Lemma groupBy_keys {T} (keyFn : T -> string) (items : list T)
  (groups : list (string * list T)) :
  map fst (fold_left (fun groups item => mapPush (keyFn item) item groups) items groups)
  = fold_left setAdd (map keyFn items) (map fst groups).
Proof.
  revert groups. induction items as [|x items IH]; intros groups; simpl; [reflexivity|].
  now rewrite IH, mapPush_keys.
Qed.

Lemma setAdd_fold_In (xs seen : list string) (k : string) :
  In k (fold_left setAdd xs seen) -> In k seen \/ In k xs.
Proof.
  revert seen. induction xs as [|x xs IH]; intros seen; simpl; [auto|].
  intros Hk. destruct (IH _ Hk) as [Hs | Hx]; [|auto].
  apply setAdd_In in Hs. destruct Hs as [Hs | ->]; auto.
Qed.

(** X13: groupBy partitions the items by key: the keys are the distinct
    keys of the items in the order of their first occurrence; the group of
    a key is not empty and holds exactly the items of that key, in their
    input order; and the groups together are the items. *)
Theorem groupBy_partitions_by_key :
  forall (T : Type) (keyFn : T -> string) (items : list T),
    map fst (groupBy items keyFn) = setOf (map keyFn items) /\
    NoDup (map fst (groupBy items keyFn)) /\
    (forall k g, In (k, g) (groupBy items keyFn) ->
       g <> [] /\ g = filter (fun x => String.eqb (keyFn x) k) items) /\
    Permutation (List.concat (map snd (groupBy items keyFn))) items.
Proof.
  intros T keyFn items.
  destruct (groupBy_groupsOf keyFn items) as (Hn & Hg & Hk & Hp).
  split; [|split; [|split]]; auto.
  - apply (groupBy_keys keyFn items []).
  - intros k g Hin. split; [|now apply Hg].
    assert (Hkey : In k (map fst (groupBy items keyFn)))
      by (apply in_map_iff; exists (k, g); auto).
    unfold groupBy in Hkey. rewrite (groupBy_keys keyFn items []) in Hkey. simpl in Hkey.
    assert (Hitem : exists x, In x items /\ keyFn x = k).
    { apply setAdd_fold_In in Hkey. destruct Hkey as [[] | Hk'].
      apply in_map_iff in Hk'. destruct Hk' as (x & Ex & Hx). exists x. auto. }
    destruct Hitem as (x & Hx & Ex).
    rewrite (Hg k g Hin). intros Hnil.
    assert (Hxin : In x (filter (fun y => String.eqb (keyFn y) k) items))
      by (apply filter_In; split; [exact Hx | now apply String.eqb_eq]).
    rewrite Hnil in Hxin. destruct Hxin.
Qed.

(** Spans that form a chain are all kept by the simple loop. *)
Lemma merge_fold_id_simple {T} `{Interval T} (rest init : list T) (last : T) :
  StronglySorted (fun a b => end_ a <= start b) (last :: rest) ->
  fold_left simpleStep rest (init ++ [last]) = (init ++ last :: rest)%list.
Proof.
  intros Hs. rewrite simple_fold. f_equal. f_equal.
  revert last Hs. induction rest as [|c rest IH]; intros last Hs; simpl; [reflexivity|].
  apply StronglySorted_inv in Hs. destruct Hs as [Hs Hl].
  apply Forall_inv in Hl. apply Z.leb_le in Hl. rewrite Hl.
  f_equal. now apply IH.
Qed.

End ConflictResolverFacts.

(* ================================================================== *)
(** * Routing decision: facts *)
(* ================================================================== *)

Module RouteDeciderFacts.
Import Js ConflictResolver RouteDecider.

Lemma filter_filter {A} (f g : A -> bool) (l : list A) :
  filter f (filter g l) = filter (fun x => g x && f x) l.
Proof.
  induction l as [|x l IH]; simpl.
  - reflexivity.
  - destruct (g x); simpl; [destruct (f x)|]; now rewrite IH.
Qed.

Lemma existsb_eqb_In (x : string) (seen : list string) :
  existsb (String.eqb x) seen = true <-> In x seen.
Proof.
  rewrite existsb_exists. split.
  - intros (y & Hy & E). apply String.eqb_eq in E. now subst.
  - intros Hx. exists x. split; [exact Hx | apply String.eqb_refl].
Qed.

(** The insertion-ordered set, started from [seen], adds the values that
    are new, each at its first occurrence. *)
Lemma setOf_fold (xs seen : list string) :
  fold_left setAdd xs seen =
  seen ++ filter (fun y => negb (existsb (String.eqb y) seen)) (distinctFirstSeen xs).
Proof.
  revert seen. induction xs as [|x xs IH]; intros seen; simpl.
  - now rewrite app_nil_r.
  - rewrite IH. unfold setAdd. rewrite filter_filter.
    destruct (existsb (String.eqb x) seen) eqn:E; simpl.
    + f_equal. apply filter_ext. intros y.
      destruct (String.eqb_spec y x) as [-> | Hne]; simpl; [|reflexivity].
      now rewrite E.
    + rewrite <- app_assoc. simpl. f_equal. f_equal. apply filter_ext. intros y.
      rewrite existsb_app. simpl. rewrite orb_false_r, negb_orb.
      apply andb_comm.
Qed.

Lemma setOf_distinctFirstSeen (xs : list string) : setOf xs = distinctFirstSeen xs.
Proof.
  unfold setOf. rewrite setOf_fold. simpl.
  induction (distinctFirstSeen xs) as [|y l IH]; simpl; [reflexivity | now rewrite IH].
Qed.

Lemma distinctFirstSeen_In (xs : list string) (x : string) :
  In x (distinctFirstSeen xs) <-> In x xs.
Proof.
  induction xs as [|y xs IH]; simpl; [tauto|].
  rewrite filter_In, IH.
  destruct (String.eqb_spec x y) as [-> | Hne]; simpl.
  - split; auto.
  - split.
    + intros [E | [H _]]; [now left | now right].
    + intros [E | H]; [congruence | right; auto].
Qed.

Lemma distinctFirstSeen_NoDup (xs : list string) : NoDup (distinctFirstSeen xs).
Proof.
  induction xs as [|y xs IH]; simpl.
  - constructor.
  - constructor.
    + rewrite filter_In. intros [_ E]. now rewrite String.eqb_refl in E.
    + now apply NoDup_filter.
Qed.

Lemma decideRoute_pii (piiResult : PIIDetectionResult) (routing : Routing)
  (secretsResult : option SecretsDetectionResult) (secretsAction : option SecretsAction) :
  secretsDetected secretsResult && isRouteLocal secretsAction = false ->
  decideRoute piiResult routing secretsResult secretsAction = piiDecision piiResult routing.
Proof.
  intros E. unfold decideRoute, piiDecision. rewrite E.
  now rewrite setOf_distinctFirstSeen.
Qed.

Lemma secretsRouteLocal_test (secretsResult : option SecretsDetectionResult)
  (secretsAction : option SecretsAction) :
  secretsDetected secretsResult && isRouteLocal secretsAction = true <->
  secretsRouteLocal secretsResult secretsAction.
Proof.
  unfold secretsRouteLocal. rewrite andb_true_iff. split.
  - intros [Hd Ha]. split.
    + destruct secretsResult as [r|]; [|discriminate]. exists r. auto.
    + destruct secretsAction as [[| |]|]; try discriminate. reflexivity.
  - intros [(r & -> & Hd) ->]. auto.
Qed.

(** C4: the precedence of decideRoute.  (1) Secrets detected under
    route_local: provider local, the reason lists the types of the matches
    in order.  (2) Otherwise, PII detected: routing.on_pii_detected, the
    reason lists the entity types of the new entities, deduplicated in
    first-seen order.  (3) Otherwise: routing.default, reason
    No PII detected. *)
Theorem decideRoute_precedence (piiResult : PIIDetectionResult) (routing : Routing)
  (secretsResult : option SecretsDetectionResult) (secretsAction : option SecretsAction) :
  (forall r, secretsResult = Some r -> detected r = true ->
     secretsAction = Some route_local ->
     decideRoute piiResult routing secretsResult secretsAction =
     {| provider := local;
        reason := "Secrets detected (route_local): " ++ join ", " (map type (matches r)) |})
  /\
  (~ secretsRouteLocal secretsResult secretsAction -> hasPII piiResult = true ->
     decideRoute piiResult routing secretsResult secretsAction =
     {| provider := on_pii_detected routing;
        reason := "PII detected: " ++
          join ", " (distinctFirstSeen (map entity_type (newEntities piiResult))) |} /\
     NoDup (distinctFirstSeen (map entity_type (newEntities piiResult))) /\
     (forall t, In t (distinctFirstSeen (map entity_type (newEntities piiResult))) <->
                In t (map entity_type (newEntities piiResult))))
  /\
  (~ secretsRouteLocal secretsResult secretsAction -> hasPII piiResult = false ->
     decideRoute piiResult routing secretsResult secretsAction =
     {| provider := default routing; reason := "No PII detected" |}).
Proof.
  split; [|split].
  - intros r -> Hd ->. unfold decideRoute. simpl. now rewrite Hd.
  - intros Hno Hpii.
    assert (E : secretsDetected secretsResult && isRouteLocal secretsAction = false).
    { destruct (secretsDetected secretsResult && isRouteLocal secretsAction) eqn:E;
        [|reflexivity].
      exfalso. apply Hno. now apply secretsRouteLocal_test. }
    rewrite (decideRoute_pii _ _ _ _ E). unfold piiDecision. rewrite Hpii.
    repeat split.
    + apply distinctFirstSeen_NoDup.
    + apply distinctFirstSeen_In.
    + apply distinctFirstSeen_In.
  - intros Hno Hpii.
    assert (E : secretsDetected secretsResult && isRouteLocal secretsAction = false).
    { destruct (secretsDetected secretsResult && isRouteLocal secretsAction) eqn:E;
        [|reflexivity].
      exfalso. apply Hno. now apply secretsRouteLocal_test. }
    rewrite (decideRoute_pii _ _ _ _ E). unfold piiDecision. now rewrite Hpii.
Qed.

Lemma decideRoute_precedence_witness :
  let pii := {| hasPII := true;
                newEntities := [mkEntity 0 10 90 "PERSON"; mkEntity 12 30 90 "EMAIL_ADDRESS";
                                mkEntity 40 50 90 "PERSON"];
                entitiesByMessage := [];
                language := "en"; languageFallback := false; scanTimeMs := 50 |} in
  let clean := {| hasPII := false; newEntities := []; entitiesByMessage := [];
                  language := "en"; languageFallback := false; scanTimeMs := 50 |} in
  let routing := {| default := upstream; on_pii_detected := upstream |} in
  let secrets := {| detected := true;
                    matches := [{| type := "API_KEY_OPENAI"; count := 1 |};
                                {| type := "JWT_TOKEN"; count := 2 |}];
                    redactions := [] |} in
  decideRoute pii routing (Some secrets) (Some route_local) =
    {| provider := local;
       reason := "Secrets detected (route_local): API_KEY_OPENAI, JWT_TOKEN" |} /\
  decideRoute pii routing (Some secrets) (Some redact) =
    {| provider := upstream; reason := "PII detected: PERSON, EMAIL_ADDRESS" |} /\
  decideRoute clean routing (Some secrets) (Some block) =
    {| provider := upstream; reason := "No PII detected" |}.
Proof.
  intros pii clean routing secrets.
  assert (Hredact : ~ secretsRouteLocal (Some secrets) (Some redact))
    by (intros [_ E]; discriminate E).
  assert (Hblock : ~ secretsRouteLocal (Some secrets) (Some block))
    by (intros [_ E]; discriminate E).
  split; [|split].
  - exact (proj1 (decideRoute_precedence pii routing (Some secrets) (Some route_local))
             secrets eq_refl eq_refl eq_refl).
  - exact (proj1 (proj1 (proj2 (decideRoute_precedence pii routing (Some secrets)
                                  (Some redact))) Hredact eq_refl)).
  - exact (proj2 (proj2 (decideRoute_precedence clean routing (Some secrets) (Some block)))
             Hblock eq_refl).
Defined.

(** C5: with the action block or redact, whatever the secrets result, the
    decision is the one taken when no secrets result is supplied at all,
    which is the decision of the PII rules alone. *)
Theorem decideRoute_ignores_block_and_redact (piiResult : PIIDetectionResult)
  (routing : Routing) (secretsResult : option SecretsDetectionResult)
  (unusedAction : option SecretsAction) :
  decideRoute piiResult routing secretsResult (Some block)
    = decideRoute piiResult routing None unusedAction /\
  decideRoute piiResult routing secretsResult (Some redact)
    = decideRoute piiResult routing None unusedAction /\
  decideRoute piiResult routing None unusedAction = piiDecision piiResult routing.
Proof.
  assert (Hnone : decideRoute piiResult routing None unusedAction
                  = piiDecision piiResult routing)
    by (apply decideRoute_pii; reflexivity).
  rewrite Hnone. repeat split; apply decideRoute_pii; simpl; apply andb_false_r.
Qed.

Example route_local_wins_over_pii :
  provider
    (decideRoute
       {| hasPII := true; newEntities := [mkEntity 0 10 90 "PERSON"];
          entitiesByMessage := []; language := "en"; languageFallback := false;
          scanTimeMs := 50 |}
       {| default := upstream; on_pii_detected := upstream |}
       (Some {| detected := true; matches := [{| type := "API_KEY_AWS"; count := 1 |}];
                redactions := [] |})
       (Some route_local)) = local.
Proof. reflexivity. Qed.


(* ------------------------------------------------------------------ *)
(** ** Further properties of decideRoute and of the test helpers *)
(* ------------------------------------------------------------------ *)

Lemma secretsRouteLocal_dec (secretsResult : option SecretsDetectionResult)
  (secretsAction : option SecretsAction) :
  secretsDetected secretsResult && isRouteLocal secretsAction = false <->
  ~ secretsRouteLocal secretsResult secretsAction.
Proof.
  rewrite <- secretsRouteLocal_test.
  destruct (secretsDetected secretsResult && isRouteLocal secretsAction);
    split; congruence.
Qed.

(** X14: a request goes upstream only by policy: the provider is upstream
    exactly when no detected secret forces the local route and the routing
    entry of the case at hand (on_pii_detected when PII was detected,
    default otherwise) is upstream. *)
Theorem decideRoute_upstream_only_by_policy (piiResult : PIIDetectionResult)
  (routing : Routing) (secretsResult : option SecretsDetectionResult)
  (secretsAction : option SecretsAction) :
  provider (decideRoute piiResult routing secretsResult secretsAction) = upstream <->
  ~ secretsRouteLocal secretsResult secretsAction /\
  (if hasPII piiResult then on_pii_detected routing else default routing) = upstream.
Proof.
  rewrite <- secretsRouteLocal_dec. unfold decideRoute.
  destruct (secretsDetected secretsResult && isRouteLocal secretsAction); simpl.
  - split; [discriminate | intros [E _]; discriminate E].
  - destruct (hasPII piiResult); simpl; tauto.
Qed.

Lemma prefix_append (p s : string) : prefix p (p ++ s) = true.
Proof.
  induction p as [|c p IH]; simpl.
  - now destruct s.
  - destruct (ascii_dec c c); [exact IH | contradiction].
Qed.

(** X15: the reason tells which rule decided: it begins with
    Secrets detected (route_local) exactly when a detected secret forced
    the local route, it begins with PII detected exactly when no secret
    did and PII was detected, and it is No PII detected exactly when
    neither applies. *)
Theorem decideRoute_reason_names_the_rule (piiResult : PIIDetectionResult)
  (routing : Routing) (secretsResult : option SecretsDetectionResult)
  (secretsAction : option SecretsAction) :
  (prefix "Secrets detected (route_local): "
     (reason (decideRoute piiResult routing secretsResult secretsAction)) = true <->
   secretsRouteLocal secretsResult secretsAction) /\
  (prefix "PII detected: "
     (reason (decideRoute piiResult routing secretsResult secretsAction)) = true <->
   ~ secretsRouteLocal secretsResult secretsAction /\ hasPII piiResult = true) /\
  (reason (decideRoute piiResult routing secretsResult secretsAction)
   = "No PII detected"%string <->
   ~ secretsRouteLocal secretsResult secretsAction /\ hasPII piiResult = false).
Proof.
  rewrite <- secretsRouteLocal_dec, <- secretsRouteLocal_test. unfold decideRoute.
  destruct (secretsDetected secretsResult && isRouteLocal secretsAction).
  - cbn [reason]. rewrite prefix_append. split; [tauto|]. split.
    + split; [intros E; simpl in E; discriminate E | intros [E _]; discriminate E].
    + split; [intros E; simpl in E; discriminate E | intros [E _]; discriminate E].
  - destruct (hasPII piiResult); cbn [reason].
    + rewrite prefix_append. split; [|split].
      * split; [intros E; simpl in E; discriminate E | intros E; discriminate E].
      * tauto.
      * split; [intros E; simpl in E; discriminate E | intros [_ E]; discriminate E].
    + split; [|split].
      * split; [intros E; simpl in E; discriminate E | intros E; discriminate E].
      * split; [intros E; simpl in E; discriminate E | intros [_ E]; discriminate E].
      * tauto.
Qed.

Lemma map_entity_type_created (hasPII : bool) (entities : list string) :
  map entity_type (newEntities (createPIIResult hasPII entities)) = entities.
Proof.
  simpl. rewrite map_map. simpl. apply map_id.
Qed.

(** X16: the decisions the tests build with their helpers, for every
    list of entity types and of matches: with detected PII the provider
    is on_pii_detected and the reason lists each given entity type once,
    in first-seen order; without it the provider is the default and the
    given entities are ignored; a detected secret under route_local gives
    local and lists the types of all matches, and an undetected one
    leaves the decision to the PII rules. *)
Theorem decideRoute_on_created_results (routing : Routing) (entities : list string)
  (matches : list SecretsMatch) (anyPII : bool) (secretsAction : option SecretsAction) :
  decideRoute (createPIIResult true entities) routing None None
    = {| provider := on_pii_detected routing;
         reason := "PII detected: " ++ join ", " (distinctFirstSeen entities) |} /\
  decideRoute (createPIIResult false entities) routing None None
    = {| provider := default routing; reason := "No PII detected" |} /\
  decideRoute (createPIIResult anyPII entities) routing
      (Some (createSecretsResult true matches)) (Some route_local)
    = {| provider := local;
         reason := "Secrets detected (route_local): " ++ join ", " (map type matches) |} /\
  decideRoute (createPIIResult anyPII entities) routing
      (Some (createSecretsResult false matches)) secretsAction
    = decideRoute (createPIIResult anyPII entities) routing None None.
Proof.
  split; [|split; [|split]].
  - rewrite decideRoute_pii by reflexivity. unfold piiDecision.
    cbn [hasPII createPIIResult]. now rewrite map_entity_type_created.
  - reflexivity.
  - reflexivity.
  - rewrite !decideRoute_pii by reflexivity. reflexivity.
Qed.

(** The redactions of createSecretsResult, from index [i] on. *)
Lemma created_redactions_from (i : Z) (matches : list SecretsMatch) :
  Forall (fun r => i * 100 <= r_start r /\ valid r)
    (mapIndexed (fun m i => {| r_start := i * 100; r_end := i * 100 + 50;
                               r_type := type m |}) i matches) /\
  StronglySorted (fun a b : SecretsRedaction => r_end a <= r_start b /\ r_start a < r_start b)
    (mapIndexed (fun m i => {| r_start := i * 100; r_end := i * 100 + 50;
                               r_type := type m |}) i matches).
Proof.
  revert i. induction matches as [|m matches IH]; intros i; simpl.
  - split; constructor.
  - destruct (IH (i + 1)) as [Hf Hs]. split.
    + constructor; [split; [simpl; lia | unfold valid; simpl; lia]|].
      eapply Forall_impl; [|exact Hf]. intros r [Hr Hv]. split; [lia | exact Hv].
    + constructor; [exact Hs|].
      eapply Forall_impl; [|exact Hf]. intros r [Hr _]. simpl. lia.
Qed.

Lemma mapIndexed_map {A B C : Type} (f : A -> Z -> B) (g : B -> C) (h : A -> C)
  (i : Z) (xs : list A) :
  (forall x j, g (f x j) = h x) -> map g (mapIndexed f i xs) = map h xs.
Proof.
  intros Hgf. revert i. induction xs as [|x xs IH]; intros i; simpl; [reflexivity|].
  now rewrite Hgf, IH.
Qed.

(** X17: createSecretsResult builds one redaction per match, in order and
    with the type of the match; the redactions have start < end, each ends
    before the next one starts, and resolveConflictsSimple returns them
    unchanged. *)
Theorem createSecretsResult_redactions_are_resolved (detected : bool)
  (matches : list SecretsMatch) :
  map r_type (redactions (createSecretsResult detected matches)) = map type matches /\
  Forall valid (redactions (createSecretsResult detected matches)) /\
  PairwiseDisjoint (redactions (createSecretsResult detected matches)) /\
  resolveConflictsSimple (redactions (createSecretsResult detected matches))
    = redactions (createSecretsResult detected matches).
Proof.
  cbn [redactions createSecretsResult].
  destruct (created_redactions_from 0 matches) as [Hf Hs].
  set (rs := mapIndexed (fun m i => {| r_start := i * 100; r_end := i * 100 + 50;
                                       r_type := type m |}) 0 matches) in *.
  split; [|split; [|split]].
  - apply mapIndexed_map. reflexivity.
  - eapply Forall_impl; [|exact Hf]. intros r [_ Hv]. exact Hv.
  - intros i j a b Hij Hi Hj.
    destruct (Nat.lt_total i j) as [Hlt | [E | Hlt]]; [| contradiction |].
    + destruct (JsFacts.StronglySorted_nth _ _ Hs i j a b Hlt Hi Hj) as [Hb _].
      exact (proj1 (ConflictResolverFacts.before_not_overlaps a b Hb)).
    + destruct (JsFacts.StronglySorted_nth _ _ Hs j i b a Hlt Hj Hi) as [Hb _].
      exact (proj2 (ConflictResolverFacts.before_not_overlaps b a Hb)).
  - unfold resolveConflictsSimple.
    destruct (List.length rs <=? 1)%nat; [reflexivity|].
    rewrite JsFacts.sort_sorted_id.
    + destruct rs as [|first rest]; [reflexivity|].
      apply (ConflictResolverFacts.merge_fold_id_simple rest [] first).
      eapply ConflictResolverFacts.StronglySorted_impl_In; [|exact Hs].
      intros a b _ _ [Hb _]. exact Hb.
    + eapply ConflictResolverFacts.StronglySorted_impl_In; [|exact Hs].
      intros a b _ _ [_ Hlt]. apply ConflictResolverFacts.simpleOrder_compare.
      left. exact Hlt.
Qed.

End RouteDeciderFacts.

(* ================================================================== *)
(** * The unmasking stream: facts *)
(* ================================================================== *)

Module StreamRewriterFacts.
Import StreamRewriter.

Local Open Scope string_scope.

(** ** Strings and lines *)

Lemma append_assoc (a b c : string) : (a ++ b) ++ c = a ++ (b ++ c).
Proof. induction a as [|x a IH]; simpl; [reflexivity | now rewrite IH]. Qed.

Lemma append_empty_r (a : string) : a ++ "" = a.
Proof. induction a as [|x a IH]; simpl; [reflexivity | now rewrite IH]. Qed.

Lemma split_nonempty (s : string) : split s <> [].
Proof.
  induction s as [|c s IH]; simpl; [discriminate|].
  destruct (c =? "010")%char; [discriminate|].
  destruct (split s); [contradiction | discriminate].
Qed.

(** A line feed between two texts separates their lines. *)
Lemma split_app_LF (s1 s2 : string) :
  split (s1 ++ LF ++ s2) = (split s1 ++ split s2)%list.
Proof.
  change (LF ++ s2) with (String "010"%char s2).
  induction s1 as [|c s1 IH]; simpl.
  - reflexivity.
  - destruct (c =? "010")%char; simpl.
    + now rewrite IH.
    + rewrite IH. pose proof (split_nonempty s1) as Hne.
      destruct (split s1) as [|line lines]; [contradiction | reflexivity].
Qed.


Lemma split_cons_line (c : ascii) (s : string) :
  (c =? "010")%char = false -> split s = [s] -> split (String c s) = [String c s].
Proof. intros Hc Hs. simpl. now rewrite Hc, Hs. Qed.

Section Lines.
Context {codec : JsonCodec} {masking : Masking} {redaction : Redaction}.
Variable piiContext : option MaskingContext.
Variable config : MaskingConfig.
Variable secretsContext : option RedactionContext.

Lemma processLine_other (st : Buffers) (line : string) :
  prefix "data: " line = false ->
  processLine piiContext config secretsContext st line =
  (st, if negb (trim line =? "") then [line ++ LF] else []).
Proof.
  intros Hp. unfold processLine. rewrite Hp.
  now destruct (negb (trim line =? "")).
Qed.

Lemma processLine_done (st : Buffers) :
  processLine piiContext config secretsContext st "data: [DONE]" =
  (st, ["data: [DONE]" ++ LF ++ LF]).
Proof. reflexivity. Qed.

Lemma processLine_malformed (st : Buffers) (line : string) :
  prefix "data: " line = true ->
  slice 6 line <> "[DONE]" ->
  JSON_parse (slice 6 line) = None ->
  processLine piiContext config secretsContext st line = (st, [line ++ LF]).
Proof.
  intros Hp Hd Hj. unfold processLine. rewrite Hp.
  apply String.eqb_neq in Hd. now rewrite Hd, Hj.
Qed.

Lemma processLine_blank (st : Buffers) :
  processLine piiContext config secretsContext st "" = (st, []).
Proof. reflexivity. Qed.

Lemma processLines_app (l1 l2 : list string) (acc : Buffers * list string) :
  processLines piiContext config secretsContext (l1 ++ l2) acc =
  processLines piiContext config secretsContext l2
    (processLines piiContext config secretsContext l1 acc).
Proof. unfold processLines. apply fold_left_app. Qed.

Lemma processLines_cons (line : string) (lines : list string)
  (acc : Buffers * list string) :
  processLines piiContext config secretsContext (line :: lines) acc =
  processLines piiContext config secretsContext lines
    (fst (processLine piiContext config secretsContext (fst acc) line),
     (snd acc ++ snd (processLine piiContext config secretsContext (fst acc) line))%list).
Proof.
  unfold processLines. simpl.
  now destruct (processLine piiContext config secretsContext (fst acc) line).
Qed.

(** The stream is closed, and never errored, when the source is done. *)
Lemma stream_closed {Error : Type} (nowId nowCreated : Z) (chunks : list string) :
  createUnmaskingStream (Error := Error) piiContext config secretsContext
    nowId nowCreated chunks EndOfStream =
  {| enqueued :=
       (snd (readChunks piiContext config secretsContext chunks) ++
        flushEvents piiContext config secretsContext nowId nowCreated
          (fst (readChunks piiContext config secretsContext chunks)))%list;
     ending := Closed |}.
Proof.
  unfold createUnmaskingStream.
  now destruct (readChunks piiContext config secretsContext chunks).
Qed.

End Lines.

(** ** Lines that are passed through, and the end of the stream *)

Section PassThrough.
Context {codec : JsonCodec} {masking : Masking} {redaction : Redaction}.
Variable piiContext : option MaskingContext.
Variable config : MaskingConfig.
Variable secretsContext : option RedactionContext.

(** C8 (amended): a line that does not begin with the data prefix and has
    a character that is not white space is enqueued unchanged, followed by
    one line feed; a blank or white-space line is dropped; a data line
    whose payload fails to parse is enqueued unchanged, followed by one
    line feed; the [DONE] line is enqueued followed by two line feeds.
    The buffers are left as they are in all four cases. *)
Theorem pass_through_lines (st : Buffers) (line : string) :
  (prefix "data: " line = false -> trim line <> "" ->
   processLine piiContext config secretsContext st line = (st, [line ++ LF])) /\
  (prefix "data: " line = false -> trim line = "" ->
   processLine piiContext config secretsContext st line = (st, [])) /\
  (prefix "data: " line = true -> slice 6 line <> "[DONE]" ->
   JSON_parse (slice 6 line) = None ->
   processLine piiContext config secretsContext st line = (st, [line ++ LF])) /\
  processLine piiContext config secretsContext st "data: [DONE]"
    = (st, ["data: [DONE]" ++ LF ++ LF]).
Proof.
  repeat split.
  - intros Hp Ht. rewrite processLine_other by exact Hp.
    apply String.eqb_neq in Ht. now rewrite Ht.
  - intros Hp Ht. rewrite processLine_other by exact Hp.
    now rewrite Ht.
  - apply processLine_malformed.
Qed.

End PassThrough.

Section Withheld.
Context {codec : JsonCodec} {masking : Masking}.
Variable config : MaskingConfig.

(** C10: when the PII step returns an empty output for a data line with a
    non-empty delta content, the line enqueues nothing, the PII buffer
    becomes the remaining buffer of that step and the secrets buffer is
    kept; this holds whatever the secrets operations and the secrets
    context are, so the secrets step is not run. *)
Theorem withheld_content_skips_secrets (ctx : MaskingContext) (st : Buffers)
  (line : string) (parsed content : json) :
  prefix "data: " line = true ->
  slice 6 line <> "[DONE]" ->
  JSON_parse (slice 6 line) = Some parsed ->
  deltaContent parsed = Some content ->
  truthy content = true ->
  output (unmaskStreamChunk (piiBuffer st) content ctx config) = "" ->
  forall (redaction : Redaction) (secretsContext : option RedactionContext),
    processLine (Some ctx) config secretsContext st line =
    ({| piiBuffer := remainingBuffer (unmaskStreamChunk (piiBuffer st) content ctx config);
        secretsBuffer := secretsBuffer st |}, []).
Proof.
  intros Hp Hd Hj Hc Ht Hout redaction secretsContext.
  unfold processLine. rewrite Hp.
  apply String.eqb_neq in Hd. rewrite Hd, Hj, Hc, Ht.
  unfold unmaskContent. rewrite Hout. simpl.
  now destruct secretsContext.
Qed.
End Withheld.

Lemma pass_through_lines_witness :
  processLine (codec := Reference.codec) (masking := Reference.masking)
    (redaction := Reference.redaction) None tt None emptyBuffers ": keep-alive"
  = (emptyBuffers, [": keep-alive" ++ LF]) /\
  processLine (codec := Reference.codec) (masking := Reference.masking)
    (redaction := Reference.redaction) None tt None emptyBuffers "  "
  = (emptyBuffers, []) /\
  processLine (codec := Reference.codec) (masking := Reference.masking)
    (redaction := Reference.redaction) None tt None emptyBuffers "data: {oops"
  = (emptyBuffers, ["data: {oops" ++ LF]).
Proof.
  split; [|split].
  - apply (proj1 (pass_through_lines (codec := Reference.codec) (masking := Reference.masking)
        (redaction := Reference.redaction) None tt None
                    emptyBuffers ": keep-alive")).
    + reflexivity.
    + discriminate.
  - apply (proj1 (proj2 (pass_through_lines (codec := Reference.codec) (masking := Reference.masking)
        (redaction := Reference.redaction) None tt None
                           emptyBuffers "  "))).
    + reflexivity.
    + reflexivity.
  - apply (proj1 (proj2 (proj2 (pass_through_lines (codec := Reference.codec) (masking := Reference.masking)
        (redaction := Reference.redaction) None tt None
                                  emptyBuffers "data: {oops")))).
    + reflexivity.
    + discriminate.
    + reflexivity.
Defined.

(** C8, as stated, fails: the empty line after a comment or after a
    malformed data line is not enqueued, so the output differs from the
    input, and a chunk that is one empty line enqueues nothing. *)
Lemma blank_lines_are_dropped :
  enqueued (Reference.stream None None [LF] EndOfStream) = [] /\
  concatText (enqueued (Reference.stream None None [": keep-alive" ++ LF ++ LF] EndOfStream))
    = ": keep-alive" ++ LF /\
  concatText (enqueued (Reference.stream None None [": keep-alive" ++ LF ++ LF] EndOfStream))
    <> ": keep-alive" ++ LF ++ LF /\
  concatText (enqueued (Reference.stream None None ["data: {oops" ++ LF ++ LF] EndOfStream))
    = "data: {oops" ++ LF /\
  concatText (enqueued (Reference.stream None None ["data: {oops" ++ LF ++ LF] EndOfStream))
    <> "data: {oops" ++ LF ++ LF.
Proof.
  repeat split; try reflexivity; discriminate.
Qed.


Lemma withheld_content_skips_secrets_witness :
  processLine (codec := Reference.codec) (masking := Reference.masking)
    (redaction := Reference.redaction) (Some [("P1", "Alice")]) tt (Some [("S1", "sk-1")])
    {| piiBuffer := ""; secretsBuffer := "<S" |} (Reference.eventLine "<P")
  = ({| piiBuffer := "<P"; secretsBuffer := "<S" |}, []).
Proof.
  apply (withheld_content_skips_secrets (codec := Reference.codec)
           (masking := Reference.masking) tt [("P1", "Alice")]
           {| piiBuffer := ""; secretsBuffer := "<S" |} (Reference.eventLine "<P")
           (Reference.envelope "<P") (JStr "<P")).
  - reflexivity.
  - discriminate.
  - reflexivity.
  - reflexivity.
  - reflexivity.
  - reflexivity.
Defined.


(** ** Assigning the delta content *)

Lemma getField_updField (k : string) (f : json -> json) (fields : list (string * json))
  (v : json) :
  getField k fields = Some v -> getField k (updField k f fields) = Some (f v).
Proof.
  induction fields as [|[k' v'] fields IH]; simpl; [discriminate|].
  destruct (k =? k') eqn:E; simpl; rewrite E.
  - intros Hv. injection Hv as <-. reflexivity.
  - exact IH.
Qed.

Ltac no_content :=
  match goal with
  | H : Some (JStr "") = Some ?c, Ht : truthy ?c = true |- _ =>
      injection H as <-; discriminate Ht
  | H : None = Some _ |- _ => discriminate H
  end.

(** After the assignment the envelope carries the assigned content. *)
Lemma deltaContent_set (parsed content processed : json) :
  deltaContent parsed = Some content -> truthy content = true ->
  truthy processed = true ->
  deltaContent (setDeltaContent parsed processed) = Some processed.
Proof.
  intros Hc Ht Hp.
  assert (Hget : forall fields ch,
            getField "choices" fields = Some ch ->
            forall choice, getIndex0 (Some ch) = Some choice ->
            forall cf, choice = JObj cf ->
            forall d, getField "delta" cf = Some d ->
            forall df, d = JObj df ->
            forall v, getField "content" df = Some v ->
            deltaContent (setDeltaContent (JObj fields) processed) = Some processed).
  { intros fields ch Hch choice Hchoice cf -> d Hd df -> v Hv.
    unfold deltaContent, setDeltaContent. simpl.
    rewrite (getField_updField _ _ _ _ Hch).
    assert (Hidx : getIndex0
              (Some (updIndex0
                       (updProp "delta" (updProp "content" (fun _ => processed))) ch))
            = Some (updProp "delta" (updProp "content" (fun _ => processed)) (JObj cf))).
    { destruct ch as [| | | s | items | f0]; simpl in Hchoice; try discriminate.
      - destruct s; discriminate.
      - destruct items as [|x items]; simpl in Hchoice; [discriminate|].
        injection Hchoice as ->. reflexivity.
      - simpl. now rewrite (getField_updField _ _ _ _ Hchoice). }
    rewrite Hidx. simpl.
    rewrite (getField_updField _ _ _ _ Hd). simpl.
    rewrite (getField_updField _ _ _ _ Hv). now rewrite Hp. }
  destruct parsed as [| b | n | s | items | fields]; simpl in Hc; try no_content.
  unfold deltaContent in Hc.
  change (getProp (Some (JObj fields)) "choices") with (getField "choices" fields) in Hc.
  destruct (getField "choices" fields) as [ch|] eqn:Hch; [|simpl in Hc; no_content].
  destruct (getIndex0 (Some ch)) as [choice|] eqn:Hchoice; [|simpl in Hc; no_content].
  destruct choice as [| b | n | s | items | cf]; try (simpl in Hc; no_content).
  change (getProp (Some (JObj cf)) "delta") with (getField "delta" cf) in Hc.
  destruct (getField "delta" cf) as [d|] eqn:Hd; [|simpl in Hc; no_content].
  destruct d as [| b | n | s | items | df]; try (simpl in Hc; no_content).
  change (getProp (Some (JObj df)) "content") with (getField "content" df) in Hc.
  destruct (getField "content" df) as [v|] eqn:Hv; [|simpl in Hc; no_content].
  exact (Hget fields ch Hch (JObj cf) Hchoice cf eq_refl (JObj df) Hd df eq_refl v Hv).
Qed.




(** ** Chunks that end at line boundaries *)

Section LineAligned.
Context {codec : JsonCodec} {masking : Masking} {redaction : Redaction}.
Variable piiContext : option MaskingContext.
Variable config : MaskingConfig.
Variable secretsContext : option RedactionContext.

(** Empty lines change nothing. *)
Lemma processLines_skip_empty (lines : list string) (acc : Buffers * list string) :
  processLines piiContext config secretsContext lines acc =
  processLines piiContext config secretsContext
    (filter (fun line => negb (line =? "")) lines) acc.
Proof.
  revert acc. induction lines as [|line lines IH]; intros acc; [reflexivity|].
  simpl filter. destruct (String.eqb_spec line "") as [-> | Hne]; simpl negb; cbv iota.
  - rewrite processLines_cons, processLine_blank. simpl.
    rewrite app_nil_r. destruct acc. apply IH.
  - rewrite !processLines_cons. apply IH.
Qed.

Lemma split_LF_end (s : string) : split (s ++ LF) = (split s ++ [""])%list.
Proof.
  rewrite <- (append_empty_r (s ++ LF)), append_assoc. apply split_app_LF.
Qed.

(** Reading chunks that end at line boundaries is reading the lines of
    the whole text. *)
Lemma fold_chunks_lines (chunks : list string) (acc : Buffers * list string) :
  Forall endsWithLF chunks ->
  fold_left (processChunk piiContext config secretsContext) chunks acc =
  processLines piiContext config secretsContext
    (filter (fun line => negb (line =? "")) (split (concatText chunks))) acc.
Proof.
  intros Hc. revert acc. induction Hc as [|chunk chunks [s ->] Hc IH]; intros acc.
  - reflexivity.
  - simpl fold_left. rewrite IH. simpl concatText.
    rewrite append_assoc, split_app_LF, filter_app, processLines_app.
    f_equal. unfold processChunk.
    rewrite processLines_skip_empty, split_LF_end, filter_app. simpl.
    now rewrite app_nil_r.
Qed.




End LineAligned.




(* ------------------------------------------------------------------ *)
(** ** Further properties of the stream *)
(* ------------------------------------------------------------------ *)

Lemma updField_same (k : string) (f : json -> json) (fields : list (string * json))
  (v : json) :
  getField k fields = Some v -> f v = v -> updField k f fields = fields.
Proof.
  induction fields as [|[k' v'] fields IH]; simpl; [reflexivity|].
  destruct (k =? k') eqn:E.
  - intros Hv Hf. injection Hv as ->. now rewrite Hf.
  - intros Hv Hf. now rewrite IH.
Qed.

Lemma getField_updField_other (k k' : string) (f : json -> json)
  (fields : list (string * json)) :
  k <> k' -> getField k (updField k' f fields) = getField k fields.
Proof.
  intros Hne. induction fields as [|[k0 v0] fields IH]; simpl; [reflexivity|].
  destruct (k' =? k0) eqn:E; simpl.
  - apply String.eqb_eq in E. subst k0.
    apply String.eqb_neq in Hne. now rewrite Hne.
  - now rewrite IH.
Qed.

(** Assigning the content that is there changes nothing. *)
Lemma setDeltaContent_same (parsed content : json) :
  deltaContent parsed = Some content -> truthy content = true ->
  setDeltaContent parsed content = parsed.
Proof.
  intros Hc Ht.
  destruct parsed as [| b | n | s | items | fields]; simpl in Hc; try no_content.
  unfold deltaContent in Hc.
  change (getProp (Some (JObj fields)) "choices") with (getField "choices" fields) in Hc.
  destruct (getField "choices" fields) as [ch|] eqn:Hch; [|simpl in Hc; no_content].
  destruct (getIndex0 (Some ch)) as [choice|] eqn:Hchoice; [|simpl in Hc; no_content].
  destruct choice as [| b | n | s | items | cf]; try (simpl in Hc; no_content).
  change (getProp (Some (JObj cf)) "delta") with (getField "delta" cf) in Hc.
  destruct (getField "delta" cf) as [d|] eqn:Hd; [|simpl in Hc; no_content].
  destruct d as [| b | n | s | items | df]; try (simpl in Hc; no_content).
  change (getProp (Some (JObj df)) "content") with (getField "content" df) in Hc.
  destruct (getField "content" df) as [v|] eqn:Hv; [|simpl in Hc; no_content].
  assert (Ev : v = content).
  { destruct (truthy v) eqn:Tv; [now injection Hc|].
    injection Hc as <-. discriminate Ht. }
  subst v.
  assert (Hdelta : updProp "delta" (updProp "content" (fun _ => content)) (JObj cf)
                   = JObj cf).
  { simpl. f_equal. apply (updField_same _ _ _ (JObj df) Hd).
    simpl. f_equal. now apply (updField_same _ _ _ content Hv). }
  unfold setDeltaContent. simpl. f_equal.
  apply (updField_same _ _ _ ch Hch).
  destruct ch as [| b | n | s | items | f0]; simpl in Hchoice; try discriminate.
  - reflexivity.
  - destruct items as [|x items]; simpl in Hchoice; [discriminate|].
    injection Hchoice as ->. simpl in *. now rewrite Hdelta.
  - simpl. f_equal. now apply (updField_same _ _ _ (JObj cf) Hchoice).
Qed.

(** X18: assigning the delta content and reading it are inverse: after
    an envelope with a non-empty content is assigned a non-empty processed
    content, that content is what the envelope carries; assigning the
    content it already carries leaves the envelope as it is; and the
    assignment touches no top-level property other than choices. *)
Theorem setDeltaContent_round_trip (parsed content processed : json) :
  deltaContent parsed = Some content -> truthy content = true ->
  (truthy processed = true ->
   deltaContent (setDeltaContent parsed processed) = Some processed) /\
  setDeltaContent parsed content = parsed /\
  (forall k, k <> "choices" ->
     getProp (Some (setDeltaContent parsed processed)) k = getProp (Some parsed) k).
Proof.
  intros Hc Ht. split; [|split].
  - intros Hp. eapply deltaContent_set; eauto.
  - now apply setDeltaContent_same.
  - intros k Hk. unfold setDeltaContent.
    destruct parsed as [| b | n | s | items | fields]; try reflexivity.
    simpl. now apply getField_updField_other.
Qed.

Lemma setDeltaContent_round_trip_witness :
  deltaContent (setDeltaContent (Reference.envelope "Hi <P1>") (JStr "Hi Alice"))
    = Some (JStr "Hi Alice") /\
  setDeltaContent (Reference.envelope "Hi <P1>") (JStr "Hi <P1>")
    = Reference.envelope "Hi <P1>".
Proof.
  destruct (setDeltaContent_round_trip (Reference.envelope "Hi <P1>")
              (JStr "Hi <P1>") (JStr "Hi Alice") eq_refl eq_refl) as (Hget & Hsame & _).
  split; [exact (Hget eq_refl) | exact Hsame].
Defined.

Lemma prefix_slice (p s : string) :
  prefix p s = true -> p ++ slice (String.length p) s = s.
Proof.
  revert s. induction p as [|a p IH]; intros s Hp.
  - reflexivity.
  - destruct s as [|b s]; [discriminate Hp|].
    change (prefix (String a p) (String b s))
      with (if ascii_dec a b then prefix p s else false) in Hp.
    destruct (ascii_dec a b) as [<- |]; [|discriminate Hp].
    simpl. f_equal. now apply IH.
Qed.

Lemma data_line_slice (line : string) :
  prefix "data: " line = true -> "data: " ++ slice 6 line = line.
Proof. apply (prefix_slice "data: " line). Qed.

Section More.
Context {codec : JsonCodec} {masking : Masking} {redaction : Redaction}.
Variable piiContext : option MaskingContext.
Variable config : MaskingConfig.
Variable secretsContext : option RedactionContext.

(** X19: cutting a stream at line boundaries does not matter, whatever
    its lines are: chunks that each end with a line feed give the same
    output, closed or errored, as their concatenation read as one
    chunk. *)
Theorem line_aligned_chunks_are_one_chunk {Error : Type} (nowId nowCreated : Z)
  (chunks : list string) (sourceEnd : SourceEnd Error) :
  Forall endsWithLF chunks ->
  createUnmaskingStream piiContext config secretsContext nowId nowCreated
    chunks sourceEnd =
  createUnmaskingStream piiContext config secretsContext nowId nowCreated
    [concatText chunks] sourceEnd.
Proof.
  intros Hc.
  assert (E : readChunks piiContext config secretsContext chunks =
              readChunks piiContext config secretsContext [concatText chunks]).
  { unfold readChunks. rewrite (fold_chunks_lines _ _ _ chunks _ Hc).
    simpl fold_left. unfold processChunk.
    symmetry. apply processLines_skip_empty. }
  unfold createUnmaskingStream. now rewrite E.
Qed.

(** X20: a line changes the carry-over buffers only if it is a data line
    whose payload parses to an envelope with a non-empty delta content;
    and a line enqueues at most one text. *)
Theorem buffers_change_only_on_content (st : Buffers) (line : string) :
  (fst (processLine piiContext config secretsContext st line) <> st ->
   prefix "data: " line = true /\
   exists parsed content,
     JSON_parse (slice 6 line) = Some parsed /\
     deltaContent parsed = Some content /\ truthy content = true) /\
  (List.length (snd (processLine piiContext config secretsContext st line)) <= 1)%nat.
Proof.
  unfold processLine.
  destruct (prefix "data: " line) eqn:Hp.
  2:{ destruct (negb (trim line =? "")); simpl; split; [congruence | lia | congruence | lia]. }
  destruct (slice 6 line =? "[DONE]"); [simpl; split; [congruence | lia]|].
  destruct (JSON_parse (slice 6 line)) as [parsed|] eqn:Hj;
    [|simpl; split; [congruence | lia]].
  destruct (deltaContent parsed) as [content|] eqn:Hc;
    [|simpl; split; [congruence | lia]].
  destruct (truthy content) eqn:Ht; [|simpl; split; [congruence | lia]].
  destruct (unmaskContent piiContext config secretsContext st content) as [st' processed].
  split.
  - intros _. split; [reflexivity|]. exists parsed, content. auto.
  - destruct (truthy processed); simpl; lia.
Qed.

(** X21: a data line whose payload parses to null is enqueued like a
    malformed one, followed by one line feed; a data line whose payload
    parses to an envelope without a non-empty delta content, and any
    payload that is a boolean, a number, a string or an array, is
    enqueued as it came, followed by two line feeds.  The buffers are
    left alone. *)
Theorem payloads_without_content (st : Buffers) (line : string) (parsed : json) :
  prefix "data: " line = true ->
  slice 6 line <> "[DONE]" ->
  JSON_parse (slice 6 line) = Some parsed ->
  (parsed = JNull ->
   processLine piiContext config secretsContext st line = (st, [line ++ LF])) /\
  (deltaContent parsed = Some (JStr "") ->
   processLine piiContext config secretsContext st line = (st, [line ++ LF ++ LF])) /\
  (match parsed with
   | JBool _ | JNum _ | JStr _ | JArr _ => deltaContent parsed = Some (JStr "")
   | _ => True
   end).
Proof.
  intros Hp Hd Hj. apply String.eqb_neq in Hd.
  split; [|split].
  - intros ->. unfold processLine. now rewrite Hp, Hd, Hj.
  - intros Hc. unfold processLine. rewrite Hp, Hd, Hj, Hc. simpl.
    now rewrite <- (data_line_slice line Hp) at 2.
  - destruct parsed; auto.
Qed.
End More.

Lemma line_aligned_chunks_are_one_chunk_witness :
  Reference.stream (Some Reference.alice) None
    [(": keep-alive" ++ LF) ++ LF; Reference.eventLine "Hi <P1>" ++ LF;
     ("" ++ LF ++ "data: [DONE]") ++ LF]
    EndOfStream
  = Reference.stream (Some Reference.alice) None
      [concatText [(": keep-alive" ++ LF) ++ LF; Reference.eventLine "Hi <P1>" ++ LF;
                   ("" ++ LF ++ "data: [DONE]") ++ LF]]
      EndOfStream.
Proof.
  apply (line_aligned_chunks_are_one_chunk (codec := Reference.codec)
           (masking := Reference.masking) (redaction := Reference.redaction)).
  repeat constructor; eexists; reflexivity.
Defined.

Lemma buffers_change_only_on_content_witness :
  fst (processLine (codec := Reference.codec) (masking := Reference.masking)
         (redaction := Reference.redaction) (Some Reference.alice) tt None
         emptyBuffers (Reference.eventLine "Hi <P"))
    = {| piiBuffer := "<P"; secretsBuffer := "" |} /\
  prefix "data: " (Reference.eventLine "Hi <P") = true.
Proof.
  split; [reflexivity|].
  apply (proj1 (buffers_change_only_on_content (codec := Reference.codec)
                  (masking := Reference.masking) (redaction := Reference.redaction)
                  (Some Reference.alice) tt None emptyBuffers
                  (Reference.eventLine "Hi <P"))).
  discriminate.
Defined.

Lemma payloads_without_content_witness :
  processLine (codec := Reference.codec) (masking := Reference.masking)
    (redaction := Reference.redaction) (Some Reference.alice) tt None
    emptyBuffers "data: null"
  = (emptyBuffers, ["data: null" ++ LF]) /\
  processLine (codec := Reference.codec) (masking := Reference.masking)
    (redaction := Reference.redaction) (Some Reference.alice) tt None
    emptyBuffers "data: [1,2]"
  = (emptyBuffers, ["data: [1,2]" ++ LF ++ LF]).
Proof.
  split.
  - apply (proj1 (payloads_without_content (codec := Reference.codec)
                    (masking := Reference.masking) (redaction := Reference.redaction)
                    (Some Reference.alice) tt None emptyBuffers "data: null" JNull
                    eq_refl ltac:(discriminate) eq_refl)).
    reflexivity.
  - apply (proj1 (proj2 (payloads_without_content (codec := Reference.codec)
                    (masking := Reference.masking) (redaction := Reference.redaction)
                    (Some Reference.alice) tt None emptyBuffers "data: [1,2]"
                    (JArr [JNum 1; JNum 2])
                    eq_refl ltac:(discriminate) eq_refl))).
    reflexivity.
Defined.

Section Stateless.
Context {codec : JsonCodec} {masking : Masking} {redaction : Redaction}.
Variable config : MaskingConfig.

Lemma unmaskContent_absent_contexts (piiContext : option MaskingContext)
  (secretsContext : option RedactionContext) (st : Buffers) (content : json) :
  (piiContext = None ->
   piiBuffer (fst (unmaskContent piiContext config secretsContext st content))
   = piiBuffer st) /\
  (secretsContext = None ->
   secretsBuffer (fst (unmaskContent piiContext config secretsContext st content))
   = secretsBuffer st).
Proof.
  unfold unmaskContent.
  destruct piiContext as [pc|], secretsContext as [sc|]; simpl;
    split; intros E; try discriminate E;
    repeat match goal with
           | |- context [if ?b then _ else _] => destruct b
           end; reflexivity.
Qed.

Lemma processLine_absent_contexts (piiContext : option MaskingContext)
  (secretsContext : option RedactionContext) (st : Buffers) (line : string) :
  (piiContext = None ->
   piiBuffer (fst (processLine piiContext config secretsContext st line)) = piiBuffer st) /\
  (secretsContext = None ->
   secretsBuffer (fst (processLine piiContext config secretsContext st line))
   = secretsBuffer st).
Proof.
  unfold processLine.
  destruct (prefix "data: " line);
    [|destruct (negb (trim line =? "")); simpl; auto].
  destruct (slice 6 line =? "[DONE]"); [simpl; auto|].
  destruct (JSON_parse (slice 6 line)) as [parsed|]; [|simpl; auto].
  destruct (deltaContent parsed) as [content|]; [|simpl; auto].
  destruct (truthy content); [|simpl; auto].
  pose proof (unmaskContent_absent_contexts piiContext secretsContext st content) as Hu.
  destruct (unmaskContent piiContext config secretsContext st content) as [st' processed].
  simpl in Hu. destruct (truthy processed); simpl; exact Hu.
Qed.

Lemma processLines_no_contexts (lines : list string) (acc : Buffers * list string) :
  fst (processLines None config None lines acc) = fst acc.
Proof.
  revert acc. induction lines as [|line lines IH]; intros acc; [reflexivity|].
  rewrite processLines_cons, IH. simpl.
  destruct (processLine_absent_contexts None None (fst acc) line) as [Hp Hs].
  specialize (Hp eq_refl). specialize (Hs eq_refl).
  destruct (fst (processLine None config None (fst acc) line)) as [pb sb].
  destruct (fst acc) as [pb0 sb0]. simpl in *. now subst.
Qed.

Lemma readChunks_no_contexts (chunks : list string) :
  fst (readChunks None config None chunks) = emptyBuffers.
Proof.
  unfold readChunks.
  generalize (@nil string). generalize emptyBuffers as st.
  induction chunks as [|chunk chunks IH]; intros st out; [reflexivity|].
  simpl fold_left. unfold processChunk at 2.
  pose proof (processLines_no_contexts (split chunk) (st, out)) as Hst.
  destruct (processLines None config None (split chunk) (st, out)) as [st' out'].
  simpl in Hst. subst st'. apply IH.
Qed.

(** X22: a buffer whose context is absent never changes; so a stream with
    neither context keeps both buffers empty, ends without a flush event,
    and enqueues every event with a non-empty delta content as the
    serialization of its parsed payload, the content untouched. *)
Theorem absent_contexts_leave_content_alone :
  (forall piiContext secretsContext st line,
     (piiContext = None ->
      piiBuffer (fst (processLine piiContext config secretsContext st line))
      = piiBuffer st) /\
     (secretsContext = None ->
      secretsBuffer (fst (processLine piiContext config secretsContext st line))
      = secretsBuffer st)) /\
  (forall chunks, fst (readChunks None config None chunks) = emptyBuffers) /\
  (forall (Error : Type) nowId nowCreated chunks,
     createUnmaskingStream (Error := Error) None config None nowId nowCreated
       chunks EndOfStream
     = {| enqueued := snd (readChunks None config None chunks); ending := Closed |}) /\
  (forall st line parsed content,
     prefix "data: " line = true -> slice 6 line <> "[DONE]" ->
     JSON_parse (slice 6 line) = Some parsed ->
     deltaContent parsed = Some content -> truthy content = true ->
     processLine None config None st line = (st, [frame parsed])).
Proof.
  split; [|split; [|split]].
  - apply processLine_absent_contexts.
  - apply readChunks_no_contexts.
  - intros Error nowId nowCreated chunks. rewrite stream_closed.
    rewrite readChunks_no_contexts. simpl. now rewrite app_nil_r.
  - intros st line parsed content Hp Hd Hj Hc Ht.
    unfold processLine. apply String.eqb_neq in Hd. rewrite Hp, Hd, Hj, Hc, Ht.
    unfold unmaskContent. simpl. rewrite Ht.
    rewrite (setDeltaContent_same parsed content Hc Ht). now destruct st.
Qed.

(** X23: when the source is done the stream enqueues at most one more
    text, after everything else: nothing when the flushed text is empty,
    as it is when both buffers are empty; otherwise one data frame of an
    envelope that carries exactly the flushed text, with the creation time
    in seconds and a null finish_reason. *)
Theorem flush_event_is_last (piiContext : option MaskingContext)
  (secretsContext : option RedactionContext) {Error : Type} (nowId nowCreated : Z)
  (chunks : list string) :
  (flushBuffers piiContext config secretsContext
     (fst (readChunks piiContext config secretsContext chunks)) = "" ->
   enqueued (createUnmaskingStream (Error := Error) piiContext config secretsContext
               nowId nowCreated chunks EndOfStream)
   = snd (readChunks piiContext config secretsContext chunks)) /\
  (flushBuffers piiContext config secretsContext
     (fst (readChunks piiContext config secretsContext chunks)) <> "" ->
   exists envelope,
     enqueued (createUnmaskingStream (Error := Error) piiContext config secretsContext
                 nowId nowCreated chunks EndOfStream)
     = (snd (readChunks piiContext config secretsContext chunks) ++ [frame envelope])%list /\
     deltaContent envelope
     = Some (JStr (flushBuffers piiContext config secretsContext
                     (fst (readChunks piiContext config secretsContext chunks)))) /\
     getProp (Some envelope) "created" = Some (JNum (nowCreated / 1000)) /\
     getProp (getIndex0 (getProp (Some envelope) "choices")) "finish_reason"
     = Some JNull) /\
  flushBuffers piiContext config secretsContext emptyBuffers = "".
Proof.
  rewrite stream_closed. cbn [enqueued]. unfold flushEvents.
  set (flushed := flushBuffers piiContext config secretsContext
                    (fst (readChunks piiContext config secretsContext chunks))).
  split; [|split].
  - intros ->. simpl. now rewrite app_nil_r.
  - intros Hne. apply String.eqb_neq in Hne. rewrite Hne. simpl negb. cbv iota.
    exists (finalEvent nowId nowCreated flushed).
    split; [reflexivity|]. split; [|split; reflexivity].
    unfold deltaContent. simpl. now rewrite Hne.
  - reflexivity.
Qed.
End Stateless.

Lemma absent_contexts_leave_content_alone_witness :
  processLine (codec := Reference.codec) (masking := Reference.masking)
    (redaction := Reference.redaction) None tt None emptyBuffers
    (Reference.eventLine "Hi <P1>")
  = (emptyBuffers, [Reference.eventLine "Hi <P1>" ++ LF ++ LF]).
Proof.
  exact (proj2 (proj2 (proj2 (absent_contexts_leave_content_alone
                                (codec := Reference.codec) (masking := Reference.masking)
                                (redaction := Reference.redaction) tt)))
           emptyBuffers (Reference.eventLine "Hi <P1>") (Reference.envelope "Hi <P1>")
           (JStr "Hi <P1>") eq_refl ltac:(discriminate) eq_refl eq_refl eq_refl).
Defined.

Lemma flush_event_is_last_witness :
  exists envelope,
    enqueued (Reference.stream (Some Reference.alice) None
                [Reference.eventLine "Hi <P" ++ LF] EndOfStream)
    = (snd (readChunks (codec := Reference.codec) (masking := Reference.masking)
              (redaction := Reference.redaction) (Some Reference.alice) tt None
              [(Reference.eventLine "Hi <P" ++ LF)%string]) ++
       [frame (codec := Reference.codec) envelope])%list /\
    deltaContent envelope = Some (JStr "<P").
Proof.
  destruct (proj1 (proj2 (flush_event_is_last (codec := Reference.codec)
                     (masking := Reference.masking) (redaction := Reference.redaction)
                     tt (Some Reference.alice) None (Error := string)
                     1700000000123 1700000000124
                     [Reference.eventLine "Hi <P" ++ LF]))
              ltac:(discriminate)) as (envelope & Henq & Hcontent & _).
  exists envelope. split; [exact Henq | exact Hcontent].
Defined.

End StreamRewriterFacts.
